(** * Monte Carlo tree search of metaMinichess

    A shallow embedding of [learning/alpha_zero/distributed/mcts.py]
    (class [MCTS]: [getActionProb] and [search]) and the properties of its
    statistics tables.

    Numbers.  The Python code computes with a mixture of [int] and
    floating point values.  Integers (visit counts, depths, action
    indices) are [Z] or [nat]; floating point values are idealised as
    exact rationals [Q], compared with [Qeq] where arithmetic is
    involved.  [math.sqrt] and the float power [**] have no rational
    counterpart and are parameters of the development; the power is
    partial, as Python's is: it raises [OverflowError] when the result is
    out of the range of a float.  The value
    [-float('inf')] is the [None] of an [option Q].  Array division by a
    zero sum, which numpy answers with [nan]/[inf] and a warning, is Rocq's
    [x / 0 == 0]; every statement below about normalised vectors is made
    where the divisor is positive. *)

From Stdlib Require Import ZArith QArith Lia Lqa.
From stdpp Require Import gmap strings list fin_maps.

Local Open Scope Z_scope.

(** ** Exceptions and results *)

Inductive exn : Type :=
  | KeyError            (* a dict is read at a missing key *)
  | IndexError          (* an array is read out of range *)
  | ValueError          (* numpy: shapes cannot be broadcast, empty argmax *)
  | ZeroDivisionError   (* Python float division by zero *)
  | OverflowError       (* Python float power out of range *)
  | OracleError.        (* the game raised in getNextState *)

(** ** The collaborators: [self.game], [self.nnet], [self.args]

    The game and the evaluator are not part of the search engine; they are
    the fields of two records.  Boards have an arbitrary type [B]; the
    second argument of the game's methods is the player, which [MCTS]
    always passes as 1.  [getNextState] answers [None] when the game
    raises; [is_DarkChessGame] is the test [type(self.game) ==
    DarkChessGame]. *)

Record Game (B : Type) : Type := {
  stringRepresentation : B → string;
  getGameEnded : B → Z → Q;
  getValidMoves : B → Z → list bool;
  getNextState : B → Z → Z → option (B * Z);
  getCanonicalForm : B → Z → B;
  getActionSize : nat;
  is_DarkChessGame : bool;
  getDarkness : B → Z → B
}.
Arguments stringRepresentation {B}.
Arguments getGameEnded {B}.
Arguments getValidMoves {B}.
Arguments getNextState {B}.
Arguments getCanonicalForm {B}.
Arguments getActionSize {B}.
Arguments is_DarkChessGame {B}.
Arguments getDarkness {B}.

Record NNet (B : Type) : Type := { predict : B → list Q * Q }.
Arguments predict {B}.

Record Args : Type := { numMCTSSims : nat; cpuct : Q; maxMoves : Z }.

(** ** The statistics tables of an [MCTS] object *)

Abbreviation edge := (string * Z)%type.

Record MCTS : Type := {
  Qsa : gmap edge Q;            (* Q values for s,a *)
  Nsa : gmap edge Z;            (* #times edge s,a was visited *)
  Ns : gmap string Z;           (* #times board s was visited *)
  Ps : gmap string (list Q);    (* initial policy *)
  Es : gmap string Q;           (* game ended value for board s *)
  Vs : gmap string (list bool)  (* valid moves for board s *)
}.

(** [MCTS.__init__]: all six tables start empty. *)
Definition init : MCTS :=
  {| Qsa := ∅; Nsa := ∅; Ns := ∅; Ps := ∅; Es := ∅; Vs := ∅ |}.

Definition set_Es (st : MCTS) (s : string) (e : Q) : MCTS :=
  {| Qsa := Qsa st; Nsa := Nsa st; Ns := Ns st; Ps := Ps st;
     Es := <[s := e]> (Es st); Vs := Vs st |}.

Definition set_Ps (st : MCTS) (s : string) (p : list Q) : MCTS :=
  {| Qsa := Qsa st; Nsa := Nsa st; Ns := Ns st; Ps := <[s := p]> (Ps st);
     Es := Es st; Vs := Vs st |}.

Definition set_Vs (st : MCTS) (s : string) (v : list bool) : MCTS :=
  {| Qsa := Qsa st; Nsa := Nsa st; Ns := Ns st; Ps := Ps st;
     Es := Es st; Vs := <[s := v]> (Vs st) |}.

Definition set_Ns (st : MCTS) (s : string) (n : Z) : MCTS :=
  {| Qsa := Qsa st; Nsa := Nsa st; Ns := <[s := n]> (Ns st); Ps := Ps st;
     Es := Es st; Vs := Vs st |}.

Definition set_Qsa (st : MCTS) (k : edge) (q : Q) : MCTS :=
  {| Qsa := <[k := q]> (Qsa st); Nsa := Nsa st; Ns := Ns st; Ps := Ps st;
     Es := Es st; Vs := Vs st |}.

Definition set_Nsa (st : MCTS) (k : edge) (n : Z) : MCTS :=
  {| Qsa := Qsa st; Nsa := <[k := n]> (Nsa st); Ns := Ns st; Ps := Ps st;
     Es := Es st; Vs := Vs st |}.

Inductive result (A : Type) : Type :=
  | Ret (a : A) (st : MCTS)     (* normal return, with the tables after it *)
  | Exc (e : exn) (st : MCTS)   (* an exception, with the tables when raised *)
  | OutOfFuel.                  (* the model's recursion budget was too small *)
Arguments Ret {A}.
Arguments Exc {A}.
Arguments OutOfFuel {A}.

(** ** Constants *)

Definition EPS : Q := 1 # 100000000.            (* EPS = 1e-8 *)
Definition DEPTH_LIMIT_VALUE : Q := 1 # 10000.  (* the literal 1e-4 of line 72 *)

(** Where a simulation stopped descending.  This is not a value of the
    Python code: [search] below returns it beside its result so that
    statements can name the end of the descended path. *)
Inductive leaf : Type :=
  | AtDepthLimit (s : string)            (* the depth guard fired at s *)
  | AtTerminal (s : string) (e : Q)      (* Es[s] = e was nonzero *)
  | AtExpansion (s : string) (v : Q).    (* s was expanded, the net said v *)

Definition trace : Type := list edge * leaf.

(** The value of the position at the leaf, for the player to move there. *)
Definition leaf_value (lf : leaf) : Q :=
  match lf with
  | AtDepthLimit _ => DEPTH_LIMIT_VALUE
  | AtTerminal _ e => e
  | AtExpansion _ v => v
  end.

(** A value seen [k] plies higher up: the sign flips at each ply. *)
Definition flip (k : nat) (x : Q) : Q := if Nat.even k then x else (- x)%Q.

(** ** Numeric helpers *)

(** [x > y] on floats. *)
Definition Qgtb (x y : Q) : bool := negb (Qle_bool x y).

(** [u > cur_best] where [cur_best] starts as [-float('inf')]. *)
Definition gt_best (u : Q) (cur_best : option Q) : bool :=
  match cur_best with
  | None => true
  | Some c => Qgtb u c
  end.

Definition b2q (b : bool) : Q := if b then 1%Q else 0%Q.

(** [np.sum] and the builtin [sum]. *)
Definition np_sum (l : list Q) : Q := foldr Qplus 0%Q l.

(** Elementwise binary operation on two one-dimensional arrays, with
    numpy's broadcasting of an array of length one. *)
Definition np_broadcast {A B C : Type} (f : A → B → C)
    (xs : list A) (ys : list B) : option (list C) :=
  if decide (length xs = length ys) then Some (zip_with f xs ys)
  else match xs, ys with
       | [x], _ => Some (map (f x) ys)
       | _, [y] => Some (map (λ x, f x y) xs)
       | _, _ => None
       end.

(** The builtin [sum] on integers. *)
Definition sumZ (l : list Z) : Z := foldr Z.add 0 l.

(** Total number of recorded visits of the edges leaving [s]: the sum of
    [Nsa[(s, a)]] over every [a] for which the table has an entry. *)
Definition edge_sum (nsa : gmap edge Z) (s : string) : Z :=
  map_fold (λ k n acc, if decide (k.1 = s) then n + acc else acc) 0 nsa.

(** Number of actions a mask marks legal. *)
Fixpoint count_legal (valids : list bool) : Z :=
  match valids with
  | [] => 0
  | b :: rest => (if b then 1 else 0) + count_legal rest
  end.

(** A policy over the mask [valids]: non-negative entries, zero on the
    illegal actions, total mass 1. *)
Definition masked_distribution (valids : list bool) (ps : list Q) : Prop :=
  Forall2 (λ (b : bool) p, (0 <= p)%Q ∧ (b = false → (p == 0)%Q)) valids ps
  ∧ (np_sum ps == 1)%Q.

(** The uniform policy over the legal actions of [valids]. *)
Definition uniform_over (valids : list bool) (ps : list Q) : Prop :=
  Forall2 (λ (b : bool) p,
             (p == if b then 1 / inject_Z (count_legal valids) else 0)%Q)
          valids ps.

(** [arr / d] for a scalar [d]. *)
Definition np_div (l : list Q) (d : Q) : list Q := map (λ x, (x / d)%Q) l.

(** [np.argmax]: the first index holding the maximum. *)
Fixpoint argmax_from (l : list Z) (i : nat) (best : Z) (besti : nat) : nat :=
  match l with
  | [] => besti
  | x :: r =>
      if best <? x then argmax_from r (S i) x i
      else argmax_from r (S i) best besti
  end.

Definition np_argmax (l : list Z) : option nat :=
  match l with
  | [] => None
  | x :: r => Some (argmax_from r 1 x 0)
  end.

(** ** Toy collaborators used to run the model on concrete inputs *)

Module Toy.

(** One position that every move maps to itself; one action. *)
Definition loop_game : Game unit := {|
  stringRepresentation := λ _, "s"%string;
  getGameEnded := λ _ _, 0%Q;
  getValidMoves := λ _ _, [true];
  getNextState := λ b _ _, Some (b, -1);
  getCanonicalForm := λ b _, b;
  getActionSize := 1;
  is_DarkChessGame := false;
  getDarkness := λ b _, b |}.

(** A non-terminal position for which the game reports no legal action
    (and whose [getNextState] accepts any index). *)
Definition stuck_game : Game unit := {|
  stringRepresentation := λ _, "s"%string;
  getGameEnded := λ _ _, 0%Q;
  getValidMoves := λ _ _, [false; false];
  getNextState := λ b _ _, Some (b, -1);
  getCanonicalForm := λ b _, b;
  getActionSize := 2;
  is_DarkChessGame := false;
  getDarkness := λ b _, b |}.

(** Four positions in a line: two actions, of which the second is the
    legal one and leads from each position to the next; the last
    position is lost for the player to move. *)
Inductive pos : Type := P0 | P1 | P2 | P3.

Definition pos_next (p : pos) : pos :=
  match p with P0 => P1 | P1 => P2 | P2 => P3 | P3 => P3 end.

Definition pos_key (p : pos) : string :=
  match p with P0 => "0" | P1 => "1" | P2 => "2" | P3 => "3" end.

Definition line_game : Game pos := {|
  stringRepresentation := pos_key;
  getGameEnded := λ p _, match p with P3 => (-1)%Q | _ => 0%Q end;
  getValidMoves := λ _ _, [false; true];
  getNextState := λ p _ a, if a =? 1 then Some (pos_next p, -1) else None;
  getCanonicalForm := λ b _, b;
  getActionSize := 2;
  is_DarkChessGame := false;
  getDarkness := λ b _, b |}.

(** One self-looping position with three actions, the first illegal. *)
Definition tri_game : Game unit := {|
  stringRepresentation := λ _, "s"%string;
  getGameEnded := λ _ _, 0%Q;
  getValidMoves := λ _ _, [false; true; true];
  getNextState := λ b _ _, Some (b, -1);
  getCanonicalForm := λ b _, b;
  getActionSize := 3;
  is_DarkChessGame := false;
  getDarkness := λ b _, b |}.

(** The tables of [tri_game] right after the expansion of its position
    under a uniform evaluator. *)
Definition tri_expanded : MCTS :=
  {| Qsa := ∅; Nsa := ∅; Ns := {["s"%string := 0]};
     Ps := {["s"%string := [0%Q; 1 # 2; 1 # 2]]};
     Es := {["s"%string := 0%Q]};
     Vs := {["s"%string := [false; true; true]]} |}.

(** An evaluator that answers the policy [pi] and the value [v] for
    every board. *)
Definition const_net {B : Type} (pi : list Q) (v : Q) : NNet B :=
  {| predict := λ _, (pi, v) |}.

Definition mk_args (sims : nat) (depth : Z) : Args :=
  {| numMCTSSims := sims; cpuct := 1; maxMoves := depth |}.

(** Stand-ins for [math.sqrt] and [**] in concrete runs.  The runs below
    do not depend on the values of [sqrt_stub]: selection there is among
    equal scores or of a single legal action.  [pow_stub] is the power
    for the exponent 1, the only one it is used with.  [pow_steep] is the
    power for the exponents from 1024 on, those of the temperatures up to
    1/1024: 0 and 1 are fixed and every larger integer is sent out of the
    range of a float ([2 ** 1024.0] raises [OverflowError]). *)
Definition sqrt_stub (q : Q) : Q := q.
Definition pow_stub (x : Z) (e : Q) : exn + Q := inr (inject_Z x).
Definition pow_steep (x : Z) (e : Q) : exn + Q :=
  if x <=? 1 then inr (inject_Z x) else inl OverflowError.

End Toy.

(** ** The search engine *)

Section Engine.
Context {B : Type}.
Variable game : Game B.
Variable nnet : NNet B.
Variable args : Args.
(** [math.sqrt], and [x ** e] for an integer base and a float exponent:
    [inr] of the result, or [inl] of the exception Python raises. *)
Variable sqrt : Q → Q.
Variable pow : Z → Q → exn + Q.

(** [self.max_tree_depth = args['maxMoves']] *)
Definition max_tree_depth : Z := maxMoves args.

(** *** Selection: lines 116-132 *)

(** The upper confidence bound [u] of lines 123-126 for action [a]. *)
Definition ucb (st : MCTS) (s : string) (a : nat) : exn + Q :=
  match Qsa st !! (s, Z.of_nat a) with
  | Some q =>
      match Ps st !! s with
      | None => inl KeyError
      | Some ps =>
          match ps !! a with
          | None => inl IndexError
          | Some p =>
              match Ns st !! s with
              | None => inl KeyError
              | Some ns =>
                  match Nsa st !! (s, Z.of_nat a) with
                  | None => inl KeyError
                  | Some nsa =>
                      inr (q + cpuct args * p * sqrt (inject_Z ns)
                               / (1 + inject_Z nsa))%Q
                  end
              end
          end
      end
  | None =>
      match Ps st !! s with
      | None => inl KeyError
      | Some ps =>
          match ps !! a with
          | None => inl IndexError
          | Some p =>
              match Ns st !! s with
              | None => inl KeyError
              | Some ns => inr (cpuct args * p * sqrt (inject_Z ns + EPS))%Q
              end
          end
      end
  end.

(** The loop [for a in range(self.game.getActionSize())], run over the
    remaining indices [acts] from the current [cur_best], [best_act]. *)
Fixpoint select_loop (st : MCTS) (s : string) (valids : list bool)
    (acts : list nat) (cur_best : option Q) (best_act : Z) : exn + Z :=
  match acts with
  | [] => inr best_act
  | a :: rest =>
      match valids !! a with
      | None => inl IndexError
      | Some false => select_loop st s valids rest cur_best best_act
      | Some true =>
          match ucb st s a with
          | inl e => inl e
          | inr u =>
              if gt_best u cur_best
              then select_loop st s valids rest (Some u) (Z.of_nat a)
              else select_loop st s valids rest cur_best best_act
          end
      end
  end.

(** [cur_best = -float('inf')], [best_act = -1], then the loop. *)
Definition select (st : MCTS) (s : string) (valids : list bool) : exn + Z :=
  select_loop st s valids (seq 0 (getActionSize game)) None (-1).

(** *** Expansion of a leaf: lines 81-114 *)

(** The argument of [self.nnet.predict], lines 83-86. *)
Definition observe (board : B) : B :=
  if is_DarkChessGame game then getDarkness game board 1 else board.

Definition expand (st : MCTS) (board : B) (s : string) : result Q :=
  let '(pi, v) := predict nnet (observe board) in
  let st0 := set_Ps st s pi in
  let valids := getValidMoves game board 1 in
  match np_broadcast (λ p b, (p * b2q b)%Q) pi valids with
  | None => Exc ValueError st0
  | Some masked =>
      let st1 := set_Ps st s masked in
      let sum_Ps_s := np_sum masked in
      if Qgtb (sum_Ps_s - 0) 0 then
        Ret (- v)%Q
            (set_Ns (set_Vs (set_Ps st s (np_div masked sum_Ps_s)) s valids) s 0)
      else
        match np_broadcast (λ p b, (p + b2q b)%Q) masked valids with
        | None => Exc ValueError st1
        | Some added =>
            Ret (- v)%Q
                (set_Ns (set_Vs (set_Ps st s (np_div added (np_sum added)))
                                s valids) s 0)
        end
  end.

(** *** Backup: lines 138-147 *)

Definition backup (st : MCTS) (s : string) (a : Z) (v : Q) : result Q :=
  match Qsa st !! (s, a) with
  | Some q =>
      match Nsa st !! (s, a) with
      | None => Exc KeyError st
      | Some n =>
          let st1 := set_Qsa st (s, a) ((inject_Z n * q + v) / (inject_Z n + 1))%Q in
          let st2 := set_Nsa st1 (s, a) (n + 1) in
          match Ns st2 !! s with
          | None => Exc KeyError st2
          | Some ns => Ret (- v)%Q (set_Ns st2 s (ns + 1))
          end
      end
  | None =>
      let st2 := set_Nsa (set_Qsa st (s, a) v) (s, a) 1 in
      match Ns st2 !! s with
      | None => Exc KeyError st2
      | Some ns => Ret (- v)%Q (set_Ns st2 s (ns + 1))
      end
  end.

(** *** Terminal check: lines 75-76 *)

Definition memoize (st : MCTS) (board : B) : MCTS :=
  let s := stringRepresentation game board in
  match Es st !! s with
  | None => set_Es st s (getGameEnded game board 1)
  | Some _ => st
  end.

(** *** [MCTS.search]

    [fuel] bounds the number of nested calls, this one included.  The
    second component of the returned pair is not in the Python code: it
    is the list of edges [(s, a)] the call descended through, outermost
    first (its length is the number of recursive calls made), and the
    [leaf] where the descent stopped. *)
Fixpoint search (fuel : nat) (st : MCTS) (canonicalBoard : B) (depth : Z)
    : result (Q * trace) :=
  match fuel with
  | O => OutOfFuel
  | S fuel' =>
      let s := stringRepresentation game canonicalBoard in
      if max_tree_depth <=? depth then
        Ret ((- DEPTH_LIMIT_VALUE)%Q, ([], AtDepthLimit s))
            (set_Es st s DEPTH_LIMIT_VALUE)
      else
        let st1 := memoize st canonicalBoard in
        match Es st1 !! s with
        | None => Exc KeyError st1
        | Some e =>
            if negb (Qeq_bool e 0) then Ret ((- e)%Q, ([], AtTerminal s e)) st1
            else
              match Ps st1 !! s with
              | None =>
                  match expand st1 canonicalBoard s with
                  | Ret r st2 =>
                      Ret (r, ([], AtExpansion s
                                     (snd (predict nnet (observe canonicalBoard)))))
                          st2
                  | Exc x st2 => Exc x st2
                  | OutOfFuel => OutOfFuel
                  end
              | Some _ =>
                  match Vs st1 !! s with
                  | None => Exc KeyError st1
                  | Some valids =>
                      match select st1 s valids with
                      | inl x => Exc x st1
                      | inr a =>
                          match getNextState game canonicalBoard 1 a with
                          | None => Exc OracleError st1
                          | Some (next_s, next_player) =>
                              let next_s := getCanonicalForm game next_s next_player in
                              match search fuel' st1 next_s (depth + 1) with
                              | Ret (v, (path, lf)) st2 =>
                                  match backup st2 s a v with
                                  | Ret r st3 => Ret (r, ((s, a) :: path, lf)) st3
                                  | Exc x st3 => Exc x st3
                                  | OutOfFuel => OutOfFuel
                                  end
                              | Exc x st2 => Exc x st2
                              | OutOfFuel => OutOfFuel
                              end
                          end
                      end
                  end
              end
        end
  end.

(** Nested calls needed from [depth]: the guard fires at
    [max_tree_depth]. *)
Definition fuel_for (depth : Z) : nat := S (Z.to_nat (max_tree_depth - depth)).

(** [self.search(canonicalBoard)] with the default [depth = 0]. *)
Definition search0 (st : MCTS) (canonicalBoard : B) : result (Q * trace) :=
  search (fuel_for 0) st canonicalBoard 0.

(** *** [MCTS.getActionProb] *)

(** [for i in range(n): self.search(canonicalBoard)] *)
Fixpoint run_sims (n : nat) (st : MCTS) (canonicalBoard : B) : result unit :=
  match n with
  | O => Ret tt st
  | S n' =>
      match search0 st canonicalBoard with
      | Ret _ st' => run_sims n' st' canonicalBoard
      | Exc x st' => Exc x st'
      | OutOfFuel => OutOfFuel
      end
  end.

(** [counts], line 39. *)
Definition root_counts (st : MCTS) (s : string) : list Z :=
  map (λ a, default 0 (Nsa st !! (s, Z.of_nat a))) (seq 0 (getActionSize game)).

(** [[x**(1./temp) for x in counts]], line 46, for the exponent [e]: the
    powers in the order of the list, or the exception of the first power
    that raises. *)
Fixpoint powers (e : Q) (counts : list Z) : exn + list Q :=
  match counts with
  | [] => inr []
  | x :: counts' =>
      match pow x e with
      | inl err => inl err
      | inr p =>
          match powers e counts' with
          | inl err => inl err
          | inr ps => inr (p :: ps)
          end
      end
  end.

Definition getActionProb (st : MCTS) (canonicalBoard : B) (temp : Q)
    : result (list Q) :=
  match run_sims (numMCTSSims args) st canonicalBoard with
  | Ret _ st' =>
      let s := stringRepresentation game canonicalBoard in
      let counts := root_counts st' s in
      if Qeq_bool temp 0 then
        match np_argmax counts with
        | None => Exc ValueError st'
        | Some bestA => Ret (<[bestA := 1%Q]> (replicate (length counts) 0%Q)) st'
        end
      else
        match powers (1 / temp)%Q counts with
        | inl err => Exc err st'
        | inr counts =>
            let total := np_sum counts in
            match counts with
            | [] => Ret [] st'
            | _ :: _ =>
                if Qeq_bool total 0 then Exc ZeroDivisionError st'
                else Ret (np_div counts total) st'
            end
        end
  | Exc x st' => Exc x st'
  | OutOfFuel => OutOfFuel
  end.

(** *** Outcomes of a run of the model *)

(** The call returned or raised: it did not exhaust its recursion budget. *)
Definition completes {A : Type} (r : result A) : Prop :=
  match r with
  | OutOfFuel => False
  | _ => True
  end.

(** Number of recursive calls a returned [search] made. *)
Definition calls_made (r : result (Q * trace)) : nat :=
  match r with
  | Ret (_, (path, _)) _ => length path
  | _ => 0%nat
  end.

Local Abbreviation key := (stringRepresentation game).

(** *** Selection, in the words of the specification *)

(** Some action of the action space is marked legal by [valids]. *)
Definition has_legal (valids : list bool) : Prop :=
  ∃ j : nat, (j < getActionSize game)%nat ∧ valids !! j = Some true.

(** [a] is an index of the action space that [valids] marks legal. *)
Definition legal_action (valids : list bool) (a : Z) : Prop :=
  ∃ i : nat, a = Z.of_nat i ∧ (i < getActionSize game)%nat ∧ valids !! i = Some true.

(** The upper-confidence score of action [a] at a position with prior
    policy [ps] and visit count [ns]: the first formula when the edge has a
    recorded value, the second when it has none. *)
Definition ucb_score (st : MCTS) (s : string) (ps : list Q) (ns : Z) (a : nat) : Q :=
  match Qsa st !! (s, Z.of_nat a) with
  | Some q =>
      (q + cpuct args * default 0 (ps !! a) * sqrt (inject_Z ns)
           / (1 + inject_Z (default 0%Z (Nsa st !! (s, Z.of_nat a)))))%Q
  | None => (cpuct args * default 0 (ps !! a) * sqrt (inject_Z ns + EPS))%Q
  end.

(** What the loop of [select] has established after the indices below
    [lo]: nothing legal seen and the initial values kept, or the first
    maximum among the legal indices seen. *)
Definition best_so_far (st : MCTS) (s : string) (valids : list bool)
    (lo : nat) (cur_best : option Q) (best_act : Z) : Prop :=
  match cur_best with
  | None => best_act = -1 ∧ ∀ j : nat, (j < lo)%nat → valids !! j ≠ Some true
  | Some u =>
      ∃ i : nat, best_act = Z.of_nat i ∧ (i < lo)%nat ∧ valids !! i = Some true
        ∧ ucb st s i = inr u
        ∧ ∀ j : nat, (j < lo)%nat → valids !! j = Some true →
            ∃ u', ucb st s j = inr u' ∧ (u' <= u)%Q ∧ ((j < i)%nat → (u' < u)%Q)
  end.

(** *** Invariants of the tables *)

(** The action [a] that selection returns under the mask [valids]: a legal
    index when there is one, else the initial [-1]. *)
Definition chosen_under (valids : list bool) (a : Z) : Prop :=
  (has_legal valids → legal_action valids a) ∧ (¬ has_legal valids → a = -1).

Record wf (st : MCTS) : Prop := {
  wf_edges : ∀ k, is_Some (Qsa st !! k) ↔ is_Some (Nsa st !! k);
  wf_tables : ∀ s, is_Some (Ps st !! s) →
                is_Some (Vs st !! s) ∧ is_Some (Ns st !! s);
  wf_edge_mask : ∀ s a, is_Some (Nsa st !! (s, a)) →
                   is_Some (Ps st !! s)
                   ∧ ∃ valids, Vs st !! s = Some valids ∧ chosen_under valids a;
  wf_count : ∀ s n, Ns st !! s = Some n → n = edge_sum (Nsa st) s;
  wf_visits : ∀ k n, Nsa st !! k = Some n → 1 ≤ n;
  wf_mask_origin : ∀ s valids, Vs st !! s = Some valids →
                     ∃ board, key board = s ∧ valids = getValidMoves game board 1
}.

(** The tables an [MCTS] object can hold: those of a new object, and those
    left by a call of [search] that returned. *)
Inductive reachable : MCTS → Prop :=
  | reachable_init : reachable init
  | reachable_search fuel st board depth r st' :
      reachable st → search fuel st board depth = Ret r st' → reachable st'.

(** What a simulation never undoes: the policy and mask of an expanded
    position stay, and visit counts do not decrease. *)
Record frame (st st' : MCTS) : Prop := {
  frame_Ps : ∀ s, is_Some (Ps st !! s) → Ps st' !! s = Ps st !! s;
  frame_Vs : ∀ s, is_Some (Ps st !! s) → Vs st' !! s = Vs st !! s;
  frame_Ns : ∀ s n, Ns st !! s = Some n → ∃ n', Ns st' !! s = Some n' ∧ n ≤ n'
}.

(** *** The contract of the collaborators

    What the engine may expect of a game and an evaluator that agree on
    one action space: keys name positions uniquely, masks and policies
    have one entry per action, a position that is not over has a legal
    action, and a legal action can be played. *)
Record well_behaved : Prop := {
  key_inj : ∀ b b', key b = key b' → b = b';
  valids_length : ∀ b, length (getValidMoves game b 1) = getActionSize game;
  policy_length : ∀ b, length (fst (predict nnet b)) = getActionSize game;
  has_moves : ∀ b, (getGameEnded game b 1 == 0)%Q →
                has_legal (getValidMoves game b 1);
  next_state : ∀ b a, legal_action (getValidMoves game b 1) a →
                 is_Some (getNextState game b 1 a)
}.


(** Two tables that differ at most by outcomes the terminal check has
    memoised in the second: what a descent leaves behind it on its way
    down. *)
Record same_stats (st0 st : MCTS) : Prop := {
  ss_Qsa : Qsa st0 = Qsa st;
  ss_Nsa : Nsa st0 = Nsa st;
  ss_Ns : Ns st0 = Ns st;
  ss_Ps : Ps st0 = Ps st;
  ss_Vs : Vs st0 = Vs st;
  ss_Es : ∀ s, Es st0 !! s = Es st !! s
               ∨ (Es st0 !! s = None
                  ∧ ∃ b, key b = s ∧ Es st !! s = Some (getGameEnded game b 1))
}.

(** *** One simulation as a derivation

    [search_run st board depth r path lf st'] : the call
    [search(board, depth)] on tables [st] returns [r] with tables [st'],
    having descended [path] down to [lf].  One constructor per state of
    the per-simulation state machine. *)
Inductive search_run : MCTS → B → Z → Q → list edge → leaf → MCTS → Prop :=
  | run_depth_limited st board depth :
      max_tree_depth ≤ depth →
      search_run st board depth (- DEPTH_LIMIT_VALUE)%Q []
        (AtDepthLimit (key board)) (set_Es st (key board) DEPTH_LIMIT_VALUE)
  | run_terminal st board depth e :
      depth < max_tree_depth →
      Es (memoize st board) !! key board = Some e →
      Qeq_bool e 0 = false →
      search_run st board depth (- e)%Q [] (AtTerminal (key board) e)
        (memoize st board)
  | run_expand st board depth e r st' :
      depth < max_tree_depth →
      Es (memoize st board) !! key board = Some e →
      Qeq_bool e 0 = true →
      Ps (memoize st board) !! key board = None →
      expand (memoize st board) board (key board) = Ret r st' →
      search_run st board depth r []
        (AtExpansion (key board) (snd (predict nnet (observe board)))) st'
  | run_descend st board depth e ps valids a nb np v path lf st2 r st3 :
      depth < max_tree_depth →
      Es (memoize st board) !! key board = Some e →
      Qeq_bool e 0 = true →
      Ps (memoize st board) !! key board = Some ps →
      Vs (memoize st board) !! key board = Some valids →
      select (memoize st board) (key board) valids = inr a →
      getNextState game board 1 a = Some (nb, np) →
      search_run (memoize st board) (getCanonicalForm game nb np) (depth + 1)
        v path lf st2 →
      backup st2 (key board) a v = Ret r st3 →
      search_run st board depth r ((key board, a) :: path) lf st3.

Lemma search_sound fuel : ∀ st board depth r path lf st',
  search fuel st board depth = Ret (r, (path, lf)) st' →
  search_run st board depth r path lf st'.
Proof.
  induction fuel as [|fuel IH]; intros st board depth r path lf st' H;
    [discriminate|].
  cbn [search] in H. fold search in H.
  destruct (max_tree_depth <=? depth) eqn:Hd.
  { inversion H; subst. apply run_depth_limited. lia. }
  assert (depth < max_tree_depth) by lia.
  destruct (Es (memoize st board) !! key board) as [e|] eqn:He;
    [|discriminate].
  destruct (Qeq_bool e 0) eqn:Hz; cbn [negb] in H.
  2:{ inversion H; subst. by eapply run_terminal. }
  destruct (Ps (memoize st board) !! key board) as [ps|] eqn:Hp.
  2:{ destruct (expand _ _ _) as [r0 st0| |] eqn:Hx; try discriminate.
      inversion H; subst. by eapply run_expand. }
  destruct (Vs (memoize st board) !! key board) as [valids|] eqn:Hv;
    [|discriminate].
  destruct (select _ _ valids) as [x|a] eqn:Hs; [discriminate|].
  destruct (getNextState game board 1 a) as [[nb np]|] eqn:Hn;
    [|discriminate].
  destruct (search fuel _ _ _) as [[v [p l]] st2| |] eqn:Hr;
    try discriminate.
  destruct (backup st2 _ a v) as [r0 st3| |] eqn:Hb; try discriminate.
  inversion H; subst.
  eapply run_descend; eauto.
Qed.

(** *** Order on scores *)

Lemma Qgtb_true x y : Qgtb x y = true ↔ (y < x)%Q.
Proof.
  unfold Qgtb. rewrite negb_true_iff, <- not_true_iff_false, Qle_bool_iff.
  split; [apply Qnot_le_lt | apply Qlt_not_le].
Qed.

Lemma Qgtb_false x y : Qgtb x y = false ↔ (x <= y)%Q.
Proof. unfold Qgtb. by rewrite negb_false_iff, Qle_bool_iff. Qed.

(** *** Selection *)

Lemma select_loop_best st s valids len : ∀ lo cur_best best_act a,
  best_so_far st s valids lo cur_best best_act →
  select_loop st s valids (seq lo len) cur_best best_act = inr a →
  ∃ cur_best', best_so_far st s valids (lo + len) cur_best' a.
Proof.
  induction len as [|len IH]; intros lo cb ba a Hinv Hrun; cbn in Hrun.
  { inversion Hrun; subst. exists cb. by rewrite Nat.add_0_r. }
  replace (lo + S len)%nat with (S lo + len)%nat by lia.
  destruct (valids !! lo) as [[|]|] eqn:Hv; [| |discriminate].
  - destruct (ucb st s lo) as [x|u] eqn:Hu; [discriminate|].
    destruct (gt_best u cb) eqn:Hgt.
    + apply IH in Hrun; [exact Hrun|].
      cbn. exists lo. repeat split; try done; try lia.
      intros j Hj Hjv.
      destruct (decide (j = lo)) as [->|Hne].
      { exists u. split; [done|]. split; [apply Qle_refl | lia]. }
      destruct cb as [c|]; cbn in Hinv, Hgt.
      * destruct Hinv as (i & _ & Hi & _ & _ & Hall).
        destruct (Hall j ltac:(lia) Hjv) as (u' & Hu' & Hle & _).
        apply Qgtb_true in Hgt.
        exists u'. split; [done|].
        assert (u' < u)%Q by (eapply Qle_lt_trans; eauto).
        split; [by apply Qlt_le_weak | done].
      * destruct Hinv as [_ Hnone]. exfalso. apply (Hnone j); [lia | done].
    + apply IH in Hrun; [exact Hrun|].
      destruct cb as [c|]; cbn in Hinv, Hgt; [|discriminate].
      apply Qgtb_false in Hgt.
      destruct Hinv as (i & Hba & Hi & Hiv & Hui & Hall).
      cbn. exists i. repeat split; try done; try lia.
      intros j Hj Hjv.
      destruct (decide (j = lo)) as [->|Hne].
      { exists u. split; [done|]. split; [done | lia]. }
      apply Hall; [lia | done].
  - apply IH in Hrun; [exact Hrun|].
    destruct cb as [c|]; cbn in Hinv |- *.
    + destruct Hinv as (i & Hba & Hi & Hiv & Hui & Hall).
      exists i. repeat split; try done; try lia.
      intros j Hj Hjv.
      destruct (decide (j = lo)) as [->|Hne]; [congruence|].
      apply Hall; [lia | done].
    + destruct Hinv as [Hba Hnone]. split; [done|].
      intros j Hj. destruct (decide (j = lo)) as [->|Hne]; [congruence|].
      apply Hnone. lia.
Qed.

Lemma select_best st s valids a :
  select st s valids = inr a →
  ∃ cur_best, best_so_far st s valids (getActionSize game) cur_best a.
Proof.
  intros H. unfold select in H.
  apply (select_loop_best _ _ _ _ 0%nat None (-1)) in H; [exact H|].
  split; [done | lia].
Qed.

(** With a legal action in range the sentinel [-1] is not returned;
    without one it is. *)
Lemma select_legal st s valids a :
  select st s valids = inr a →
  (has_legal valids → legal_action valids a)
  ∧ (¬ has_legal valids → a = -1).
Proof.
  intros H. apply select_best in H as [[u|] Hb]; cbn in Hb.
  - destruct Hb as (i & -> & Hi & Hiv & _).
    split; [intros _; by exists i|].
    intros Hno. exfalso. apply Hno. by exists i.
  - destruct Hb as [-> Hnone].
    split; [|done]. intros (j & Hj & Hjv). by destruct (Hnone j Hj).
Qed.

Lemma ucb_is_score st s ps ns a u :
  Ps st !! s = Some ps → Ns st !! s = Some ns →
  ucb st s a = inr u → u = ucb_score st s ps ns a.
Proof.
  intros Hp Hn. unfold ucb, ucb_score. rewrite Hp, Hn.
  destruct (Qsa st !! (s, Z.of_nat a)) as [q|];
    destruct (ps !! a) as [p|]; try discriminate.
  - destruct (Nsa st !! (s, Z.of_nat a)) as [n|]; [|discriminate].
    by inversion 1.
  - by inversion 1.
Qed.

(** [select] raises nothing when the tables of [s] are in place. *)
Lemma ucb_returns st s ps ns a :
  Ps st !! s = Some ps → Ns st !! s = Some ns → (a < length ps)%nat →
  (is_Some (Qsa st !! (s, Z.of_nat a)) → is_Some (Nsa st !! (s, Z.of_nat a))) →
  ∃ u, ucb st s a = inr u.
Proof.
  intros Hp Hn Ha Hq. unfold ucb. rewrite Hp, Hn.
  destruct (lookup_lt_is_Some_2 ps a Ha) as [p ->].
  destruct (Qsa st !! (s, Z.of_nat a)) as [q|]; [|by eexists].
  destruct Hq as [n ->]; [by eexists|]. by eexists.
Qed.

Lemma select_loop_returns st s ps ns valids len : ∀ lo cur_best best_act,
  Ps st !! s = Some ps → Ns st !! s = Some ns →
  (lo + len ≤ length ps)%nat → (lo + len ≤ length valids)%nat →
  (∀ k, is_Some (Qsa st !! k) → is_Some (Nsa st !! k)) →
  ∃ a, select_loop st s valids (seq lo len) cur_best best_act = inr a.
Proof.
  induction len as [|len IH]; intros lo cb ba Hp Hn Hlp Hlv Hq; cbn.
  { by eexists. }
  destruct (lookup_lt_is_Some_2 valids lo ltac:(lia)) as [b ->].
  destruct b; [|apply IH; auto; lia].
  destruct (ucb_returns st s ps ns lo Hp Hn ltac:(lia) (Hq _)) as [u ->].
  destruct (gt_best u cb); apply IH; auto; lia.
Qed.

(** *** Sums of visit counts *)

Lemma edge_sum_comm (s : string) (j1 j2 : edge) (z1 z2 y : Z) :
  (if decide (j1.1 = s) then z1 + (if decide (j2.1 = s) then z2 + y else y)
   else (if decide (j2.1 = s) then z2 + y else y))
  = (if decide (j2.1 = s) then z2 + (if decide (j1.1 = s) then z1 + y else y)
     else (if decide (j1.1 = s) then z1 + y else y)).
Proof. repeat case_decide; lia. Qed.

Lemma edge_sum_empty s : edge_sum ∅ s = 0.
Proof. unfold edge_sum. by rewrite map_fold_empty. Qed.

Lemma edge_sum_insert_fresh (m : gmap edge Z) k n s :
  m !! k = None →
  edge_sum (<[k := n]> m) s
  = (if decide (k.1 = s) then n else 0) + edge_sum m s.
Proof.
  intros Hk. unfold edge_sum.
  rewrite map_fold_insert_L; [case_decide; lia | | done].
  intros. apply edge_sum_comm.
Qed.

Lemma edge_sum_insert (m : gmap edge Z) k n s :
  edge_sum (<[k := n]> m) s
  = edge_sum m s + (if decide (k.1 = s) then n - default 0 (m !! k) else 0).
Proof.
  destruct (m !! k) as [n0|] eqn:Hk; cbn.
  - rewrite <- (insert_delete_eq m k n).
    rewrite <- (insert_delete_id m k n0 Hk) at 2.
    rewrite !edge_sum_insert_fresh by apply lookup_delete_eq.
    case_decide; lia.
  - rewrite edge_sum_insert_fresh by done. case_decide; lia.
Qed.

Lemma edge_sum_no_edges (m : gmap edge Z) s :
  (∀ a, m !! (s, a) = None) → edge_sum m s = 0.
Proof.
  induction m as [|k x m Hk IH] using map_ind; intros Hnone.
  { apply edge_sum_empty. }
  rewrite edge_sum_insert_fresh by done.
  rewrite IH.
  - case_decide as Hs; [|lia]. destruct k as [s' a]; cbn in Hs; subst.
    specialize (Hnone a). by rewrite lookup_insert_eq in Hnone.
  - intros a. specialize (Hnone a).
    destruct (decide (k = (s, a))) as [->|Hne]; [done|].
    by rewrite lookup_insert_ne in Hnone.
Qed.

Lemma sumZ_cons x l : sumZ (x :: l) = x + sumZ l.
Proof. reflexivity. Qed.

Lemma sumZ_point_update (f g : nat → Z) (i0 : nat) (l : list nat) :
  NoDup l → i0 ∈ l → (∀ i, i ≠ i0 → g i = f i) →
  sumZ (map g l) = sumZ (map f l) + (g i0 - f i0).
Proof.
  intros Hnd Hin Hext. induction Hnd as [|i l Hni Hnd IH]; [by inversion Hin|].
  cbn [map]. rewrite !sumZ_cons. destruct (decide (i = i0)) as [->|Hne].
  - assert (map g l = map f l) as ->; [|lia].
    apply map_ext_in. intros j Hj. apply Hext. intros ->.
    by apply Hni, list_elem_of_In.
  - rewrite Hext by done. rewrite IH; [lia|].
    inversion Hin; subst; done.
Qed.

(** When every recorded edge of [s] carries an index of the action
    space, [edge_sum] is the sum over [range(n)]. *)
Lemma edge_sum_range (m : gmap edge Z) s (n : nat) :
  (∀ a, is_Some (m !! (s, a)) → ∃ i : nat, a = Z.of_nat i ∧ (i < n)%nat) →
  edge_sum m s = sumZ (map (λ a, default 0 (m !! (s, Z.of_nat a))) (seq 0 n)).
Proof.
  induction m as [|k x m Hk IH] using map_ind; intros Hin.
  { rewrite edge_sum_empty. induction (seq 0 n) as [|? ? IH']; [done|].
    cbn [map]. by rewrite sumZ_cons, <- IH', lookup_empty. }
  rewrite edge_sum_insert_fresh by done.
  rewrite IH.
  2:{ intros a Ha. apply Hin. destruct (decide (k = (s, a))) as [->|Hne].
      - by rewrite Hk in Ha; destruct Ha.
      - by rewrite lookup_insert_ne. }
  case_decide as Hs.
  - destruct k as [s' a]; cbn in Hs; subst s'.
    destruct (Hin a) as (i0 & -> & Hi0); [by rewrite lookup_insert_eq|].
    rewrite (sumZ_point_update
               (λ a, default 0 (m !! (s, Z.of_nat a)))
               (λ a, default 0 (<[(s, Z.of_nat i0) := x]> m !! (s, Z.of_nat a)))
               i0).
    + rewrite lookup_insert_eq, Hk. cbn. lia.
    + apply NoDup_seq.
    + apply elem_of_seq. lia.
    + intros i Hne. rewrite lookup_insert_ne; [done|]. intros [= E]. lia.
  - rewrite Z.add_0_l. f_equal. apply map_ext. intros a.
    rewrite lookup_insert_ne; [done|]. intros ->. by apply Hs.
Qed.

(** *** The invariants are kept *)

Lemma wf_init : wf init.
Proof.
  split; cbn.
  - intros k. by rewrite !lookup_empty.
  - intros s [? H]. by rewrite lookup_empty in H.
  - intros s a [? H]. by rewrite lookup_empty in H.
  - intros s n H. by rewrite lookup_empty in H.
  - intros k n H. by rewrite lookup_empty in H.
  - intros s valids H. by rewrite lookup_empty in H.
Qed.

Lemma frame_refl st : frame st st.
Proof. split; eauto. intros s n ->. exists n. split; [done | lia]. Qed.

Lemma frame_trans st1 st2 st3 : frame st1 st2 → frame st2 st3 → frame st1 st3.
Proof.
  intros [P1 V1 N1] [P2 V2 N2]. split.
  - intros s Hs. rewrite <- (P1 s Hs). apply P2. by rewrite (P1 s Hs).
  - intros s Hs. rewrite <- (V1 s Hs). apply V2. by rewrite (P1 s Hs).
  - intros s n Hn. destruct (N1 s n Hn) as (n1 & Hn1 & ?).
    destruct (N2 s n1 Hn1) as (n2 & Hn2 & ?). exists n2. split; [done | lia].
Qed.

Lemma wf_set_Es st s e : wf st → wf (set_Es st s e).
Proof. intros [? ? ? ? ? ?]. by split. Qed.

Lemma frame_set_Es st s e : frame st (set_Es st s e).
Proof. split; cbn; eauto. intros s' n ->. exists n. split; [done | lia]. Qed.

Lemma wf_memoize st board : wf st → wf (memoize st board).
Proof.
  intros H. unfold memoize. destruct (Es st !! key board); [done|].
  by apply wf_set_Es.
Qed.

Lemma frame_memoize st board : frame st (memoize st board).
Proof.
  unfold memoize. destruct (Es st !! key board); [apply frame_refl|].
  apply frame_set_Es.
Qed.

(** The tables after a successful expansion, and the value returned. *)
Lemma expand_Ret st board s r st' :
  expand st board s = Ret r st' →
  r = (- snd (predict nnet (observe board)))%Q
  ∧ ∃ p, st' = set_Ns (set_Vs (set_Ps st s p) s (getValidMoves game board 1)) s 0.
Proof.
  unfold expand. destruct (predict nnet (observe board)) as [pi v]. cbn [snd].
  destruct (np_broadcast _ pi _) as [masked|]; [|discriminate].
  destruct (Qgtb _ _).
  - inversion 1; subst. eauto.
  - destruct (np_broadcast _ masked _) as [added|]; [|discriminate].
    inversion 1; subst. eauto.
Qed.

Lemma wf_expanded st board p :
  let s := key board in
  let valids := getValidMoves game board 1 in
  wf st → Ps st !! s = None →
  wf (set_Ns (set_Vs (set_Ps st s p) s valids) s 0)
  ∧ frame st (set_Ns (set_Vs (set_Ps st s p) s valids) s 0).
Proof.
  intros s valids [He Ht Hm Hc Hv Ho] Hnone.
  assert (Hno : ∀ a, Nsa st !! (s, a) = None).
  { intros a. destruct (Nsa st !! (s, a)) eqn:E; [|done].
    destruct (Hm s a) as [[? Hp] _]; [by rewrite E|]. congruence. }
  split; split; cbn.
  - done.
  - intros s' Hs'. destruct (decide (s = s')) as [->|Hne].
    + rewrite !lookup_insert_eq. eauto.
    + rewrite !lookup_insert_ne by done. rewrite lookup_insert_ne in Hs' by done.
      eauto.
  - intros s' a Ha. destruct (decide (s = s')) as [->|Hne].
    + rewrite Hno in Ha. by destruct Ha.
    + rewrite !lookup_insert_ne by done. eauto.
  - intros s' n. destruct (decide (s = s')) as [->|Hne].
    + rewrite lookup_insert_eq. intros [= <-]. by rewrite edge_sum_no_edges.
    + rewrite lookup_insert_ne by done. eauto.
  - done.
  - intros s' valids'. destruct (decide (s = s')) as [<-|Hne].
    + rewrite lookup_insert_eq. intros [= <-]. by exists board.
    + rewrite lookup_insert_ne by done. eauto.
  - intros s' Hs'. rewrite lookup_insert_ne; [done|]. intros ->.
    rewrite Hnone in Hs'. by destruct Hs'.
  - intros s' Hs'. rewrite lookup_insert_ne; [done|]. intros ->.
    rewrite Hnone in Hs'. by destruct Hs'.
  - intros s' n Hn. destruct (decide (s = s')) as [->|Hne].
    + rewrite lookup_insert_eq. exists 0. split; [done|].
      rewrite (Hc _ _ Hn), edge_sum_no_edges by done. lia.
    + rewrite lookup_insert_ne by done. exists n. split; [done | lia].
Qed.

(** The tables after a successful backup, and the value returned. *)
Lemma backup_Ret st s a v r st' :
  backup st s a v = Ret r st' →
  r = (- v)%Q
  ∧ ∃ q' n' ns,
      Ns st !! s = Some ns
      ∧ st' = set_Ns (set_Nsa (set_Qsa st (s, a) q') (s, a) n') s (ns + 1)
      ∧ ((Qsa st !! (s, a) = None ∧ q' = v ∧ n' = 1)
         ∨ (∃ q n, Qsa st !! (s, a) = Some q ∧ Nsa st !! (s, a) = Some n
                   ∧ q' = ((inject_Z n * q + v) / (inject_Z n + 1))%Q
                   ∧ n' = n + 1)).
Proof.
  unfold backup.
  destruct (Qsa st !! (s, a)) as [q|] eqn:Hq.
  - destruct (Nsa st !! (s, a)) as [n|] eqn:Hn; [|discriminate].
    cbn. destruct (Ns st !! s) as [ns|] eqn:Hns; [|discriminate].
    inversion 1; subst. split; [done|].
    do 3 eexists. split; [done|]. split; [done|]. right. by do 2 eexists.
  - cbn. destruct (Ns st !! s) as [ns|] eqn:Hns; [|discriminate].
    inversion 1; subst. split; [done|].
    do 3 eexists. split; [done|]. split; [done|]. by left.
Qed.

Lemma wf_backed_up st s a v r st' valids :
  wf st → is_Some (Ps st !! s) → Vs st !! s = Some valids →
  chosen_under valids a →
  backup st s a v = Ret r st' →
  wf st' ∧ frame st st'.
Proof.
  intros [He Ht Hm Hc Hv Ho] Hp Hvs Hch Hb.
  apply backup_Ret in Hb as (_ & q' & n' & ns & Hns & -> & Hcase).
  assert (Hn' : n' = default 0 (Nsa st !! (s, a)) + 1 ∧ 1 ≤ n').
  { destruct Hcase as [(Hq & _ & ->)|(q & n & Hq & Hn & _ & ->)].
    - destruct (Nsa st !! (s, a)) eqn:E; [|done].
      destruct (proj2 (He (s, a))) as [? ?]; [by rewrite E|]. congruence.
    - rewrite Hn. cbn. split; [done|]. specialize (Hv _ _ Hn). lia. }
  destruct Hn' as [Hn' Hpos].
  split; split; cbn.
  - intros k. rewrite !lookup_insert_is_Some. by rewrite He.
  - intros s' Hs'. destruct (Ht s' Hs') as [? ?]. split; [done|].
    apply lookup_insert_is_Some'. by right.
  - intros s' a' Ha'. apply lookup_insert_is_Some in Ha' as [[= <- <-]|[_ Ha']].
    + split; [done|]. by exists valids.
    + by apply Hm.
  - intros s' n. rewrite edge_sum_insert. cbn [fst].
    destruct (decide (s = s')) as [->|Hne].
    + rewrite lookup_insert_eq. intros Hn.
      assert (n = ns + 1) as -> by congruence.
      rewrite (Hc _ _ Hns). repeat case_decide; try done; lia.
    + rewrite lookup_insert_ne by done. intros Hn.
      rewrite (Hc _ _ Hn). repeat case_decide; try done; lia.
  - intros k n. destruct (decide ((s, a) = k)) as [<-|Hne].
    + rewrite lookup_insert_eq. intros Hn.
      assert (n = n') as -> by congruence. done.
    + rewrite lookup_insert_ne by done. apply Hv.
  - done.
  - done.
  - done.
  - intros s' n Hn. destruct (decide (s = s')) as [->|Hne].
    + rewrite lookup_insert_eq. exists (ns + 1). split; [done|].
      assert (n = ns) by congruence. lia.
    + rewrite lookup_insert_ne by done. exists n. split; [done | lia].
Qed.

(** One simulation keeps the invariants. *)
Lemma search_run_wf st board depth r path lf st' :
  search_run st board depth r path lf st' →
  wf st → wf st' ∧ frame st st'.
Proof.
  induction 1 as [st board depth Hd
                 |st board depth e Hd He Hz
                 |st board depth e r st' Hd He Hz Hp Hx
                 |st board depth e ps valids a nb np v path lf st2 r st3
                    Hd He Hz Hp Hv Hs Hn Hrun IH Hb]; intros Hwf.
  - split; [by apply wf_set_Es | apply frame_set_Es].
  - split; [by apply wf_memoize | apply frame_memoize].
  - apply expand_Ret in Hx as (_ & p & ->).
    destruct (wf_expanded (memoize st board) board p) as [Hw Hf];
      [by apply wf_memoize | done |].
    split; [done|]. eapply frame_trans; [apply frame_memoize | done].
  - destruct (IH (wf_memoize _ _ Hwf)) as [Hw2 Hf2].
    assert (Hps : is_Some (Ps (memoize st board) !! key board)) by by rewrite Hp.
    destruct (wf_backed_up st2 (key board) a v r st3 valids) as [Hw3 Hf3];
      try done.
    + rewrite (frame_Ps _ _ Hf2) by done. done.
    + rewrite (frame_Vs _ _ Hf2) by done. done.
    + by apply select_legal in Hs.
    + split; [done|].
      eapply frame_trans; [apply frame_memoize|].
      eapply frame_trans; done.
Qed.

Lemma search_wf fuel st board depth r st' :
  search fuel st board depth = Ret r st' → wf st → wf st' ∧ frame st st'.
Proof.
  destruct r as [r [path lf]]. intros H Hw.
  apply search_sound in H. by apply (search_run_wf _ _ _ _ _ _ _ H).
Qed.

Lemma reachable_wf st : reachable st → wf st.
Proof.
  induction 1 as [|fuel st board depth r st' _ IH Hs]; [apply wf_init|].
  by apply search_wf in Hs as [? _].
Qed.

Lemma run_sims_reachable n : ∀ st board u st',
  run_sims n st board = Ret u st' → reachable st → reachable st'.
Proof.
  induction n as [|n IH]; intros st board u st' H Hr; cbn [run_sims] in H.
  { by inversion H; subst. }
  destruct (search0 st board) as [r st1| |] eqn:Hs; try discriminate.
  eapply IH; [exact H|]. by eapply reachable_search.
Qed.


(** *** Backup along a path *)

Lemma Qopp_opp_eq (x : Q) : (- - x)%Q = x.
Proof. destruct x as [n d]. unfold Qopp. cbn. by rewrite Z.opp_involutive. Qed.

Lemma flip_S k x : flip (S k) x = (- flip k x)%Q.
Proof.
  unfold flip. rewrite Nat.even_succ, <- Nat.negb_even.
  destruct (Nat.even k); cbn; [done|]. by rewrite Qopp_opp_eq.
Qed.

Lemma backup_elsewhere st s a v r st' :
  backup st s a v = Ret r st' →
  Es st' = Es st ∧ Ps st' = Ps st ∧ Vs st' = Vs st
  ∧ ∀ k, k ≠ (s, a) → Qsa st' !! k = Qsa st !! k ∧ Nsa st' !! k = Nsa st !! k.
Proof.
  intros H. apply backup_Ret in H as (_ & q' & n' & ns & _ & -> & _). cbn.
  repeat split; try done; by rewrite lookup_insert_ne.
Qed.

Lemma expand_edges st board s r st' :
  expand st board s = Ret r st' →
  Qsa st' = Qsa st ∧ Nsa st' = Nsa st ∧ Es st' = Es st.
Proof. intros H. by apply expand_Ret in H as (_ & p & ->). Qed.

Lemma memoize_edges st board :
  Qsa (memoize st board) = Qsa st ∧ Nsa (memoize st board) = Nsa st.
Proof. unfold memoize. by destruct (Es st !! key board). Qed.

(** A simulation changes the value and count of the edges it descends
    through, and of no other edge. *)
Lemma search_run_off_path st board depth r path lf st' :
  search_run st board depth r path lf st' →
  ∀ k, k ∉ path → Qsa st' !! k = Qsa st !! k ∧ Nsa st' !! k = Nsa st !! k.
Proof.
  induction 1 as [st board depth Hd
                 |st board depth e Hd He Hz
                 |st board depth e r st' Hd He Hz Hp Hx
                 |st board depth e ps valids a nb np v path lf st2 r st3
                    Hd He Hz Hp Hv Hs Hn Hrun IH Hb]; intros k Hk.
  - done.
  - by destruct (memoize_edges st board) as [-> ->].
  - apply expand_edges in Hx as (-> & -> & _).
    by destruct (memoize_edges st board) as [-> ->].
  - apply not_elem_of_cons in Hk as [Hne Hk].
    apply backup_elsewhere in Hb as (_ & _ & _ & Hb).
    destruct (Hb k Hne) as [-> ->]. destruct (IH k Hk) as [-> ->].
    by destruct (memoize_edges st board) as [-> ->].
Qed.

(** The leaf where a simulation stopped, in the tables it leaves. *)
Definition leaf_recorded (st' : MCTS) (lf : leaf) : Prop :=
  match lf with
  | AtDepthLimit s => Es st' !! s = Some DEPTH_LIMIT_VALUE
  | AtTerminal s e => Es st' !! s = Some e ∧ ¬ (e == 0)%Q
  | AtExpansion s v => is_Some (Ps st' !! s)
  end.

Lemma search_run_fresh_path st board depth r path lf st' :
  search_run st board depth r path lf st' →
  NoDup path → (∀ k, k ∈ path → Qsa st !! k = None) →
  r = flip (S (length path)) (leaf_value lf)
  ∧ ∀ (i : nat) k, path !! i = Some k →
      Nsa st' !! k = Some 1
      ∧ Qsa st' !! k = Some (flip (length path - i) (leaf_value lf)).
Proof.
  induction 1 as [st board depth Hd
                 |st board depth e Hd He Hz
                 |st board depth e r st' Hd He Hz Hp Hx
                 |st board depth e ps valids a nb np v path lf st2 r st3
                    Hd He Hz Hp Hv Hs Hn Hrun IH Hb]; intros Hnd Hfresh.
  - split; [done|]. intros i k Hi. by rewrite lookup_nil in Hi.
  - split; [done|]. intros i k Hi. by rewrite lookup_nil in Hi.
  - apply expand_Ret in Hx as (-> & _).
    split; [done|]. intros i k Hi. by rewrite lookup_nil in Hi.
  - apply NoDup_cons in Hnd as [Hnotin Hnd].
    destruct IH as [Hv' Hpath]; [done| |].
    { intros k Hk. destruct (memoize_edges st board) as [-> _].
      apply Hfresh. by right. }
    assert (Hq2 : Qsa st2 !! (key board, a) = None).
    { destruct (search_run_off_path _ _ _ _ _ _ _ Hrun _ Hnotin) as [-> _].
      destruct (memoize_edges st board) as [-> _]. apply Hfresh. by left. }
    pose proof (backup_elsewhere _ _ _ _ _ _ Hb) as (_ & _ & _ & Helse).
    apply backup_Ret in Hb
      as (-> & q' & n' & ns & Hns & -> & [(_ & -> & ->)|(q & n & Hq & _)]);
      [|congruence].
    cbn [length]. split; [by rewrite (flip_S (S (length path))), Hv'|].
    intros [|i] k Hi; cbn in Hi.
    + inversion Hi; subst. cbn [Qsa Nsa set_Qsa set_Nsa set_Ns].
      rewrite !lookup_insert_eq. by rewrite Nat.sub_0_r.
    + assert (k ≠ (key board, a)).
      { intros ->. apply Hnotin. by eapply list_elem_of_lookup_2. }
      destruct (Helse k H) as [-> ->]. cbn [Nat.sub]. by apply Hpath.
Qed.

Lemma search_run_leaf st board depth r path lf st' :
  search_run st board depth r path lf st' → leaf_recorded st' lf.
Proof.
  induction 1 as [st board depth Hd
                 |st board depth e Hd He Hz
                 |st board depth e r st' Hd He Hz Hp Hx
                 |st board depth e ps valids a nb np v path lf st2 r st3
                    Hd He Hz Hp Hv Hs Hn Hrun IH Hb].
  - cbn. by rewrite lookup_insert_eq.
  - cbn. split; [done|]. intros Heq. apply Qeq_bool_iff in Heq. congruence.
  - apply expand_Ret in Hx as (_ & p & ->). cbn.
    by rewrite !lookup_insert_eq.
  - destruct lf as [s|s e'|s v']; cbn in IH |- *.
    + by destruct (backup_elsewhere _ _ _ _ _ _ Hb) as (-> & _).
    + by destruct (backup_elsewhere _ _ _ _ _ _ Hb) as (-> & _).
    + by destruct (backup_elsewhere _ _ _ _ _ _ Hb) as (_ & -> & _).
Qed.

(** *** Masking and renormalisation *)

Lemma np_sum_cons x l : np_sum (x :: l) = (x + np_sum l)%Q.
Proof. reflexivity. Qed.

Lemma np_sum_nonneg l : Forall (λ x, (0 <= x)%Q) l → (0 <= np_sum l)%Q.
Proof.
  induction 1 as [|x l Hx _ IH]; [done|]. rewrite np_sum_cons.
  cbv beta in Hx. lra.
Qed.

Lemma np_sum_zero l :
  Forall (λ x, (0 <= x)%Q) l → (np_sum l <= 0)%Q → Forall (λ x, (x == 0)%Q) l.
Proof.
  induction 1 as [|x l Hx Hl IH]; intros Hs; [constructor|].
  rewrite np_sum_cons in Hs. cbv beta in Hx.
  pose proof (np_sum_nonneg l Hl).
  constructor; [lra|]. apply IH. lra.
Qed.

Lemma np_sum_div l d : (np_sum (np_div l d) == np_sum l / d)%Q.
Proof.
  induction l as [|x l IH].
  - cbn. unfold Qdiv. ring.
  - cbn [np_div map]. fold (np_div l d). rewrite !np_sum_cons, IH.
    unfold Qdiv. ring.
Qed.

Lemma np_sum_normalised l : (0 < np_sum l)%Q → (np_sum (np_div l (np_sum l)) == 1)%Q.
Proof.
  intros H. rewrite np_sum_div. unfold Qdiv. apply Qmult_inv_r. lra.
Qed.

Lemma np_broadcast_same_length {A1 A2 A3 : Type} (f : A1 → A2 → A3) xs ys :
  length xs = length ys → np_broadcast f xs ys = Some (zip_with f xs ys).
Proof. intros H. unfold np_broadcast. by rewrite decide_True. Qed.

Lemma masked_policy pi : ∀ valids,
  length pi = length valids → Forall (λ p, (0 <= p)%Q) pi →
  Forall2 (λ (b : bool) m, (0 <= m)%Q ∧ (b = false → (m == 0)%Q)) valids
    (zip_with (λ p b, (p * b2q b)%Q) pi valids).
Proof.
  induction pi as [|p pi IH]; intros [|b valids] Hlen Hpos;
    try discriminate; cbn; [constructor|].
  inversion Hpos; subst. constructor; [|apply IH; [by inversion Hlen | done]].
  destruct b; cbn; split; try lra; try done.
Qed.

Lemma renormalised_policy valids l d :
  (0 < d)%Q →
  Forall2 (λ (b : bool) m, (0 <= m)%Q ∧ (b = false → (m == 0)%Q)) valids l →
  Forall2 (λ (b : bool) m, (0 <= m)%Q ∧ (b = false → (m == 0)%Q)) valids
    (np_div l d).
Proof.
  intros Hd. induction 1 as [|b m valids l [Hm Hb] _ IH]; cbn; [constructor|].
  constructor; [|exact IH].
  split.
  - apply Qle_shift_div_l; lra.
  - intros Hf. rewrite (Hb Hf). unfold Qdiv. ring.
Qed.

Lemma fallback_policy masked : ∀ valids,
  length masked = length valids → Forall (λ x, (x == 0)%Q) masked →
  Forall2 (λ (b : bool) x, (x == b2q b)%Q) valids
    (zip_with (λ p b, (p + b2q b)%Q) masked valids).
Proof.
  induction masked as [|m masked IH]; intros [|b valids] Hlen Hz;
    try discriminate; cbn; [constructor|].
  inversion Hz; subst. constructor; [lra|]. apply IH; [by inversion Hlen | done].
Qed.

Lemma np_sum_mask valids l :
  Forall2 (λ (b : bool) x, (x == b2q b)%Q) valids l →
  (np_sum l == inject_Z (count_legal valids))%Q.
Proof.
  induction 1 as [|b x valids l Hx _ IH]; [reflexivity|].
  rewrite np_sum_cons. cbn [count_legal].
  rewrite inject_Z_plus, IH, Hx. by destruct b.
Qed.

Lemma count_legal_pos valids (j : nat) :
  valids !! j = Some true → 1 ≤ count_legal valids.
Proof.
  assert (Hnn : ∀ l, 0 ≤ count_legal l).
  { induction l as [|[|] l IH]; cbn; lia. }
  revert j. induction valids as [|b valids IH]; intros [|j] Hj; cbn in *;
    try discriminate.
  - inversion Hj; subst. specialize (Hnn valids). lia.
  - specialize (IH j Hj). destruct b; lia.
Qed.

Lemma uniform_policy_for (c : Z) valids l d :
  (d == inject_Z c)%Q →
  Forall2 (λ (b : bool) x, (x == b2q b)%Q) valids l →
  Forall2 (λ (b : bool) p, (p == if b then 1 / inject_Z c else 0)%Q) valids
    (np_div l d).
Proof.
  intros Hc. induction 1 as [|b x valids l Hx _ IH]; cbn; [constructor|].
  constructor; [|exact IH].
  rewrite Hx, Hc. destruct b; cbn; [reflexivity | unfold Qdiv; ring].
Qed.

Lemma uniform_policy valids l d :
  (d == inject_Z (count_legal valids))%Q →
  Forall2 (λ (b : bool) x, (x == b2q b)%Q) valids l →
  uniform_over valids (np_div l d).
Proof. apply uniform_policy_for. Qed.

Lemma uniform_is_distribution valids ps (j : nat) :
  valids !! j = Some true → uniform_over valids ps →
  Forall2 (λ (b : bool) p, (0 <= p)%Q ∧ (b = false → (p == 0)%Q)) valids ps.
Proof.
  intros Hj. apply count_legal_pos in Hj. unfold uniform_over.
  assert (Hc : (0 < inject_Z (count_legal valids))%Q).
  { change 0%Q with (inject_Z 0). rewrite <- Zlt_Qlt. lia. }
  revert Hc. generalize (inject_Z (count_legal valids)). clear Hj.
  intros c Hc.
  induction 1 as [|b p valids ps Hp _ IH]; [constructor|].
  constructor; [|exact IH].
  destruct b; split; try done.
  - rewrite Hp. apply Qle_shift_div_l; lra.
  - lra.
Qed.

(** *** Memoised outcomes *)

Lemma memoize_known st board e :
  Es st !! key board = Some e → memoize st board = st.
Proof. intros H. unfold memoize. by rewrite H. Qed.

Lemma memoize_Es st board s e :
  Es st !! s = Some e → Es (memoize st board) !! s = Some e.
Proof.
  intros H. unfold memoize.
  destruct (Es st !! key board) eqn:Hk; [done|]. cbn.
  rewrite lookup_insert_ne; [done|]. intros <-. congruence.
Qed.

(** A simulation that returns leaves every memoised outcome as it was,
    except at the key where it met the depth guard. *)
Lemma search_run_Es st board depth r path lf st' :
  search_run st board depth r path lf st' →
  ∀ s e, Es st !! s = Some e →
    Es st' !! s = Some e
    ∨ (lf = AtDepthLimit s ∧ Es st' !! s = Some DEPTH_LIMIT_VALUE).
Proof.
  induction 1 as [st board depth Hd
                 |st board depth e Hd He Hz
                 |st board depth e r st' Hd He Hz Hp Hx
                 |st board depth e ps valids a nb np v path lf st2 r st3
                    Hd He Hz Hp Hv Hs Hn Hrun IH Hb]; intros s e0 Hs0.
  - cbn. destruct (decide (key board = s)) as [<-|Hne].
    + right. by rewrite lookup_insert_eq.
    + left. by rewrite lookup_insert_ne.
  - left. by apply memoize_Es.
  - left. apply expand_edges in Hx as (_ & _ & ->). by apply memoize_Es.
  - destruct (backup_elsewhere _ _ _ _ _ _ Hb) as (-> & _).
    apply IH. by apply memoize_Es.
Qed.

(** *** Selection without a legal action *)

Lemma select_loop_skips st s valids len : ∀ lo cur_best best_act,
  (lo + len ≤ length valids)%nat →
  (∀ j : nat, (lo ≤ j < lo + len)%nat → valids !! j ≠ Some true) →
  select_loop st s valids (seq lo len) cur_best best_act = inr best_act.
Proof.
  induction len as [|len IH]; intros lo cb ba Hlen Hnone; cbn; [done|].
  destruct (lookup_lt_is_Some_2 valids lo ltac:(lia)) as [b Hb]. rewrite Hb.
  destruct b; [by destruct (Hnone lo ltac:(lia))|].
  apply IH; [lia|]. intros j Hj. apply Hnone. lia.
Qed.

Lemma select_without_legal st s valids :
  (getActionSize game ≤ length valids)%nat → ¬ has_legal valids →
  select st s valids = inr (-1).
Proof.
  intros Hlen Hno. apply select_loop_skips; [done|].
  intros j Hj Hjv. apply Hno. exists j. split; [lia | done].
Qed.

(** *** Depth guard and termination *)

Lemma fuel_for_step depth :
  depth < max_tree_depth →
  fuel_for depth = S (fuel_for (depth + 1)).
Proof. unfold fuel_for. intros. f_equal. lia. Qed.

Lemma expand_completes st board s : completes (expand st board s).
Proof.
  unfold expand. destruct (predict nnet _) as [pi v].
  destruct (np_broadcast _ pi _); [|exact I].
  destruct (Qgtb _ _); [exact I|].
  destruct (np_broadcast _ _ _); exact I.
Qed.

Lemma backup_completes st s a v : completes (backup st s a v).
Proof.
  unfold backup.
  destruct (Qsa st !! (s, a)); [destruct (Nsa st !! (s, a)); [|exact I]|];
    destruct (Ns _ !! s); exact I.
Qed.

Lemma search_fuel_enough fuel : ∀ st board depth,
  (fuel_for depth ≤ fuel)%nat → completes (search fuel st board depth).
Proof.
  induction fuel as [|fuel IH]; intros st board depth Hf.
  { unfold fuel_for in Hf. lia. }
  cbn [search]. fold search.
  destruct (max_tree_depth <=? depth) eqn:Hd; [exact I|].
  assert (Hlt : depth < max_tree_depth) by lia.
  rewrite (fuel_for_step _ Hlt) in Hf.
  specialize (IH (memoize st board)).
  destruct (Es (memoize st board) !! key board) as [e|]; [|exact I].
  destruct (negb (Qeq_bool e 0)); [exact I|].
  destruct (Ps (memoize st board) !! key board).
  2:{ pose proof (expand_completes (memoize st board) board (key board)).
      destruct (expand _ _ _); done. }
  destruct (Vs (memoize st board) !! key board) as [valids|]; [|exact I].
  destruct (select _ _ valids) as [x|a]; [exact I|].
  destruct (getNextState game board 1 a) as [[nb np]|]; [|exact I].
  specialize (IH (getCanonicalForm game nb np) (depth + 1)).
  destruct (search fuel _ _ _) as [[v [p lf0]] st2| |]; [|exact I|].
  - pose proof (backup_completes st2 (key board) a v).
    destruct (backup st2 _ a v); done.
  - apply IH. lia.
Qed.

Lemma search_run_path_bound st board depth r path lf st' :
  search_run st board depth r path lf st' →
  (length path ≤ Z.to_nat (max_tree_depth - depth))%nat.
Proof.
  induction 1 as [| | |st board depth e ps valids a nb np v path lf st2 r st3
                       Hlt _ _ _ _ _ _ _ IH _]; cbn [length]; try lia.
Qed.

Lemma depth_guard_fires fuel st board depth :
  max_tree_depth ≤ depth →
  search (S fuel) st board depth
  = Ret ((- DEPTH_LIMIT_VALUE)%Q, ([], AtDepthLimit (key board)))
        (set_Es st (key board) DEPTH_LIMIT_VALUE).
Proof.
  intros Hd. cbn [search].
  destruct (max_tree_depth <=? depth) eqn:E; [reflexivity|lia].
Qed.

(** *** From counts to probabilities *)










Section Power.
Hypothesis pow_zero : ∀ e, (0 < e)%Q → ∃ p, pow 0 e = inr p ∧ (p == 0)%Q.
Hypothesis pow_pos : ∀ x e p, 0 < x → (0 < e)%Q → pow x e = inr p → (0 < p)%Q.







End Power.

(** *** Under the contract every simulation returns *)

Section Contract.
Hypothesis contract : well_behaved.




Lemma memoize_recorded st board :
  ∃ e, Es (memoize st board) !! key board = Some e.
Proof.
  unfold memoize. destruct (Es st !! key board) as [e|] eqn:Hk; [by exists e|].
  cbn. rewrite lookup_insert_eq. by eexists.
Qed.





Lemma backup_returns st s a v :
  wf st → is_Some (Ns st !! s) → ∃ r st', backup st s a v = Ret r st'.
Proof.
  intros Hw [ns Hns]. unfold backup.
  destruct (Qsa st !! (s, a)) as [q|] eqn:Hq.
  - destruct (proj1 (wf_edges _ Hw (s, a))) as [n Hn]; [by rewrite Hq|].
    rewrite Hn. cbn. rewrite Hns. by do 2 eexists.
  - cbn. rewrite Hns. by do 2 eexists.
Qed.








(** *** The visit counts of the root *)


Lemma root_counts_length st s : length (root_counts st s) = getActionSize game.
Proof. unfold root_counts. by rewrite length_map, length_seq. Qed.



(** *** A descent that ends at a terminal or new leaf repeats no edge *)

Lemma same_stats_refl st : same_stats st st.
Proof. split; auto. Qed.

Lemma same_stats_trans st1 st2 st3 :
  same_stats st1 st2 → same_stats st2 st3 → same_stats st1 st3.
Proof.
  intros [Q1 N1 n1 P1 V1 E1] [Q2 N2 n2 P2 V2 E2].
  split; try congruence.
  intros s. destruct (E1 s) as [H1|[H1 (b & Hb & Hs)]].
  - rewrite H1. apply E2.
  - right. split; [done|]. exists b. split; [done|].
    destruct (E2 s) as [H2|[H2 _]]; congruence.
Qed.

Lemma same_stats_memoized st board : same_stats st (memoize st board).
Proof.
  unfold memoize. destruct (Es st !! key board) eqn:Hk; [apply same_stats_refl|].
  split; try done. cbn. intros s.
  destruct (decide (key board = s)) as [<-|Hne].
  - right. split; [done|]. exists board. by rewrite lookup_insert_eq.
  - left. by rewrite lookup_insert_ne.
Qed.

Lemma same_stats_memoize st0 st board :
  same_stats st0 st →
  same_stats (memoize st0 board) (memoize st board)
  ∧ Es (memoize st0 board) !! key board = Es (memoize st board) !! key board.
Proof.
  intros [HQ HN Hn HP HV HE]. unfold memoize.
  destruct (HE (key board)) as [Heq|[Hnone (b & Hb & Hsome)]].
  - rewrite Heq. destruct (Es st !! key board) eqn:Hk.
    + split; [by split | congruence].
    + split; [|cbn; by rewrite !lookup_insert_eq].
      split; try done. cbn. intros s.
      destruct (decide (key board = s)) as [<-|Hne].
      * left. by rewrite !lookup_insert_eq.
      * rewrite !lookup_insert_ne by done. apply HE.
  - apply (key_inj contract) in Hb as ->. rewrite Hnone, Hsome.
    split; [|cbn; by rewrite lookup_insert_eq].
    split; try done. cbn. intros s.
    destruct (decide (key board = s)) as [<-|Hne].
    + left. by rewrite lookup_insert_eq.
    + rewrite lookup_insert_ne by done. apply HE.
Qed.

Lemma ucb_same_stats st0 st s a :
  same_stats st0 st → ucb st0 s a = ucb st s a.
Proof. intros [HQ HN Hn HP _ _]. unfold ucb. by rewrite HQ, HN, Hn, HP. Qed.

Lemma select_loop_same_stats st0 st s valids acts : ∀ cur_best best_act,
  same_stats st0 st →
  select_loop st0 s valids acts cur_best best_act
  = select_loop st s valids acts cur_best best_act.
Proof.
  induction acts as [|a acts IH]; intros cb ba Hss; cbn; [done|].
  rewrite (ucb_same_stats _ _ _ _ Hss).
  destruct (valids !! a) as [[|]|]; [|by apply IH|done].
  destruct (ucb st s a) as [x|u]; [done|].
  destruct (gt_best u cb); by apply IH.
Qed.

Lemma expand_same_stats st0 st board s r st' :
  same_stats st0 st → expand st board s = Ret r st' →
  ∃ st0', expand st0 board s = Ret r st0' ∧ same_stats st0' st'.
Proof.
  intros [HQ HN Hn HP HV HE]. unfold expand.
  destruct (predict nnet (observe board)) as [pi v].
  destruct (np_broadcast _ pi _) as [masked|]; [|discriminate].
  destruct (Qgtb _ _).
  - inversion 1; subst. eexists. split; [reflexivity|].
    split; cbn; try done; congruence.
  - destruct (np_broadcast _ masked _) as [added|]; [|discriminate].
    inversion 1; subst. eexists. split; [reflexivity|].
    split; cbn; try done; congruence.
Qed.

Lemma backup_same_stats st0 st s a v r st' :
  same_stats st0 st → backup st s a v = Ret r st' →
  ∃ st0', backup st0 s a v = Ret r st0' ∧ same_stats st0' st'.
Proof.
  intros [HQ HN Hn HP HV HE]. unfold backup. rewrite HQ, HN.
  destruct (Qsa st !! (s, a)) as [q|].
  - destruct (Nsa st !! (s, a)) as [n|]; [|discriminate]. cbn. rewrite Hn.
    destruct (Ns st !! s) as [ns|]; [|discriminate].
    inversion 1; subst. eexists. split; [reflexivity|].
    split; cbn; try done; congruence.
  - cbn. rewrite Hn. destruct (Ns st !! s) as [ns|]; [|discriminate].
    inversion 1; subst. eexists. split; [reflexivity|].
    split; cbn; try done; congruence.
Qed.

(** A descent that does not meet the depth guard can be replayed from a
    smaller depth, and from tables with fewer memoised outcomes. *)
Lemma search_run_shift st board depth r path lf st' :
  search_run st board depth r path lf st' →
  (∀ s, lf ≠ AtDepthLimit s) →
  ∀ st0 depth0, depth0 ≤ depth → same_stats st0 st →
  ∃ st0', search_run st0 board depth0 r path lf st0' ∧ same_stats st0' st'.
Proof.
  induction 1 as [st board depth Hd
                 |st board depth e Hd He Hz
                 |st board depth e r st' Hd He Hz Hp Hx
                 |st board depth e ps valids a nb np v path lf st2 r st3
                    Hd He Hz Hp Hv Hs Hn Hrun IH Hb];
    intros Hlf st0 depth0 Hle Hss.
  - by destruct (Hlf (key board)).
  - destruct (same_stats_memoize st0 st board Hss) as [Hss1 HE1].
    exists (memoize st0 board). split; [|done].
    apply run_terminal; [lia | by rewrite HE1 | done].
  - destruct (same_stats_memoize st0 st board Hss) as [Hss1 HE1].
    destruct (expand_same_stats _ _ _ _ _ _ Hss1 Hx) as (st0' & Hx0 & Hss').
    exists st0'. split; [|done].
    eapply run_expand; [lia | by rewrite HE1 | done | | done].
    by rewrite (ss_Ps _ _ Hss1).
  - destruct (same_stats_memoize st0 st board Hss) as [Hss1 HE1].
    destruct (IH Hlf (memoize st0 board) (depth0 + 1)) as (st02 & Hrun0 & Hss2);
      [lia | done |].
    destruct (backup_same_stats _ _ _ _ _ _ _ Hss2 Hb) as (st03 & Hb0 & Hss3).
    exists st03. split; [|done].
    eapply (run_descend st0 board depth0 e ps valids a nb np); try done.
    + lia.
    + by rewrite HE1.
    + by rewrite (ss_Ps _ _ Hss1).
    + by rewrite (ss_Vs _ _ Hss1).
    + unfold select. rewrite (select_loop_same_stats _ _ _ _ _ _ _ Hss1).
      exact Hs.
Qed.

Lemma search_run_path_unique st board depth r1 path1 lf1 st1 r2 path2 lf2 st2 :
  search_run st board depth r1 path1 lf1 st1 →
  search_run st board depth r2 path2 lf2 st2 →
  path1 = path2.
Proof.
  intros H1. revert r2 path2 lf2 st2.
  induction H1 as [st board depth Hd
                  |st board depth e Hd He Hz
                  |st board depth e r st' Hd He Hz Hp Hx
                  |st board depth e ps valids a nb np v path lf st2' r st3
                     Hd He Hz Hp Hv Hs Hn Hrun IH Hb];
    intros r2 path2 lf2 st2 H2; inversion H2; subst; try done; try lia;
    try congruence.
  assert (valids0 = valids) as -> by congruence.
  assert (a0 = a) as -> by congruence.
  assert (nb0 = nb ∧ np0 = np) as [-> ->] by (split; congruence).
  f_equal. eapply IH. eassumption.
Qed.

(** The rest of a descent from its [i]-th position on. *)
Lemma search_run_suffix st board depth r path lf st' :
  search_run st board depth r path lf st' →
  ∀ (i : nat) s a, path !! i = Some (s, a) →
  ∃ st_i board_i r_i st_i',
    key board_i = s ∧ same_stats st st_i
    ∧ search_run st_i board_i (depth + Z.of_nat i) r_i (drop i path) lf st_i'.
Proof.
  induction 1 as [st board depth Hd
                 |st board depth e Hd He Hz
                 |st board depth e r st' Hd He Hz Hp Hx
                 |st board depth e ps valids a nb np v path lf st2 r st3
                    Hd He Hz Hp Hv Hs Hn Hrun IH Hb];
    intros i s' a' Hi; try by rewrite lookup_nil in Hi.
  destruct i as [|i]; cbn in Hi.
  - inversion Hi; subst. exists st, board, r, st3.
    split; [done|]. split; [apply same_stats_refl|].
    rewrite Z.add_0_r. cbn [drop]. by eapply run_descend.
  - destruct (IH i s' a' Hi) as (st_i & board_i & r_i & st_i' & Hk & Hss & Hrun_i).
    exists st_i, board_i, r_i, st_i'. split; [done|].
    split; [eapply same_stats_trans; [apply same_stats_memoized | done]|].
    cbn [drop]. replace (depth + Z.of_nat (S i)) with (depth + 1 + Z.of_nat i) by lia.
    done.
Qed.

Lemma search_run_no_repeat st board depth r path lf st' :
  search_run st board depth r path lf st' →
  (∀ s, lf ≠ AtDepthLimit s) → NoDup path.
Proof.
  induction 1 as [st board depth Hd
                 |st board depth e Hd He Hz
                 |st board depth e r st' Hd He Hz Hp Hx
                 |st board depth e ps valids a nb np v path lf st2 r st3
                    Hd He Hz Hp Hv Hs Hn Hrun IH Hb];
    intros Hlf; try apply NoDup_nil_2.
  apply NoDup_cons. split; [|by apply IH].
  intros Hin. apply list_elem_of_lookup in Hin as [i Hi].
  destruct (search_run_suffix _ _ _ _ _ _ _ Hrun i _ _ Hi)
    as (st_i & board_i & r_i & st_i' & Hk & Hss & Hrun_i).
  apply (key_inj contract) in Hk as ->.
  destruct (search_run_shift _ _ _ _ _ _ _ Hrun_i Hlf st depth)
    as (st0' & Hrun0 & _); [lia| |].
  { eapply same_stats_trans; [apply same_stats_memoized | done]. }
  assert (Houter : search_run st board depth r ((key board, a) :: path) lf st3)
    by by eapply run_descend.
  pose proof (search_run_path_unique _ _ _ _ _ _ _ _ _ _ _ Houter Hrun0) as Heq.
  apply (f_equal length) in Heq. rewrite length_drop in Heq. cbn in Heq. lia.
Qed.

End Contract.

(** *** Further properties of the engine *)

(** [np.argmax] returns the first index of the maximum. *)
Lemma argmax_from_first l : ∀ i best besti,
  (argmax_from l i best besti = besti ∧ Forall (λ y, y ≤ best) l)
  ∨ ∃ (k : nat) m, argmax_from l i best besti = (i + k)%nat
      ∧ l !! k = Some m ∧ best < m ∧ Forall (λ y, y ≤ m) l
      ∧ ∀ (j : nat) x, (j < k)%nat → l !! j = Some x → x < m.
Proof.
  induction l as [|x l IH]; intros i best besti; cbn [argmax_from].
  { left. by split. }
  destruct (best <? x) eqn:Hlt.
  - right.
    destruct (IH (S i) x i) as [[-> Hall]|(k & m & -> & Hk & Hm & Hall & Hfirst)].
    + exists 0%nat, x. rewrite Nat.add_0_r.
      split; [done|]. split; [done|]. split; [lia|].
      split; [constructor; [lia | done]|]. intros j y Hj. lia.
    + exists (S k), m. replace (i + S k)%nat with (S i + k)%nat by lia.
      split; [done|]. split; [done|]. split; [lia|].
      split; [constructor; [lia | done]|].
      intros [|j] y Hj Hy; cbn in Hy.
      * inversion Hy; subst. lia.
      * apply (Hfirst j); [lia | done].
  - destruct (IH (S i) best besti)
      as [[-> Hall]|(k & m & -> & Hk & Hm & Hall & Hfirst)].
    + left. split; [done|]. constructor; [lia | done].
    + right. exists (S k), m. replace (i + S k)%nat with (S i + k)%nat by lia.
      split; [done|]. split; [done|]. split; [lia|].
      split; [constructor; [lia | done]|].
      intros [|j] y Hj Hy; cbn in Hy.
      * inversion Hy; subst. lia.
      * apply (Hfirst j); [lia | done].
Qed.

Lemma np_argmax_first l (r : nat) :
  np_argmax l = Some r →
  ∃ m, l !! r = Some m
       ∧ (∀ (j : nat) x, l !! j = Some x → x ≤ m)
       ∧ (∀ (j : nat) x, (j < r)%nat → l !! j = Some x → x < m).
Proof.
  destruct l as [|x0 l]; [discriminate|]. cbn [np_argmax]. intros [= <-].
  destruct (argmax_from_first l 1 x0 0)
    as [[-> Hall]|(k & m & -> & Hk & Hm & Hall & Hfirst)].
  - exists x0. split; [done|]. split; [|intros j x Hj; lia].
    intros [|j] x Hx; cbn in Hx; [inversion Hx; lia|].
    by apply (proj1 (Forall_lookup _ _) Hall j).
  - exists m. split; [done|]. split.
    + intros [|j] x Hx; cbn in Hx; [inversion Hx; lia|].
      by apply (proj1 (Forall_lookup _ _) Hall j).
    + intros [|j] x Hj Hx; cbn in Hx; [inversion Hx; lia|].
      apply (Hfirst j); [lia | done].
Qed.

Lemma np_argmax_nonempty l : l ≠ [] → ∃ r, np_argmax l = Some r.
Proof. destruct l; [done|]. by eexists. Qed.

Lemma memoize_tables st board :
  Ps (memoize st board) = Ps st ∧ Vs (memoize st board) = Vs st
  ∧ Ns (memoize st board) = Ns st.
Proof. unfold memoize. by destruct (Es st !! key board). Qed.

(** A simulation stores a policy and a mask for at most one position,
    the leaf it expanded, which had none before. *)
Lemma search_run_expands_leaf st board depth r path lf st' :
  search_run st board depth r path lf st' →
  match lf with
  | AtExpansion s _ =>
      Ps st !! s = None
      ∧ is_Some (Ps st' !! s) ∧ is_Some (Vs st' !! s)
      ∧ ∀ s', s' ≠ s → Ps st' !! s' = Ps st !! s' ∧ Vs st' !! s' = Vs st !! s'
  | _ => Ps st' = Ps st ∧ Vs st' = Vs st
  end.
Proof.
  induction 1 as [st board depth Hd
                 |st board depth e Hd He Hz
                 |st board depth e r st' Hd He Hz Hp Hx
                 |st board depth e ps valids a nb np v path lf st2 r st3
                    Hd He Hz Hp Hv Hs Hn Hrun IH Hb].
  - done.
  - by destruct (memoize_tables st board) as (-> & -> & _).
  - destruct (memoize_tables st board) as (HP & HV & _).
    apply expand_Ret in Hx as (_ & p & ->). cbn.
    rewrite !lookup_insert_eq. rewrite <- HP.
    split; [done|]. split; [done|]. split; [done|].
    intros s' Hne. rewrite !lookup_insert_ne by done. by rewrite HP, HV.
  - destruct (memoize_tables st board) as (HP & HV & _).
    destruct (backup_elsewhere _ _ _ _ _ _ Hb) as (_ & -> & -> & _).
    destruct lf; rewrite ?HP, ?HV in IH; exact IH.
Qed.

(** Edge counts never decrease. *)
Lemma search_run_Nsa_mono st board depth r path lf st' :
  search_run st board depth r path lf st' → wf st →
  ∀ k n, Nsa st !! k = Some n → ∃ n', Nsa st' !! k = Some n' ∧ n ≤ n'.
Proof.
  induction 1 as [st board depth Hd
                 |st board depth e Hd He Hz
                 |st board depth e r st' Hd He Hz Hp Hx
                 |st board depth e ps valids a nb np v path lf st2 r st3
                    Hd He Hz Hp Hv Hs Hn Hrun IH Hb]; intros Hw k n Hk.
  - exists n. split; [done | lia].
  - destruct (memoize_edges st board) as [_ ->]. exists n. split; [done | lia].
  - apply expand_edges in Hx as (_ & -> & _).
    destruct (memoize_edges st board) as [_ ->]. exists n. split; [done | lia].
  - pose proof (wf_memoize _ board Hw) as Hw1.
    destruct (IH Hw1 k n) as (n2 & Hn2 & Hle).
    { by destruct (memoize_edges st board) as [_ ->]. }
    destruct (search_run_wf _ _ _ _ _ _ _ Hrun Hw1) as [Hw2 _].
    apply backup_Ret in Hb as (_ & q' & n' & ns & _ & -> & Hcase). cbn.
    destruct (decide ((key board, a) = k)) as [<-|Hne].
    + rewrite lookup_insert_eq. exists n'. split; [done|].
      destruct Hcase as [(Hq & _ & _)|(q & n0 & _ & Hn0 & _ & ->)].
      * destruct (proj2 (wf_edges _ Hw2 (key board, a))) as [? ?];
          [by rewrite Hn2 | congruence].
      * assert (n0 = n2) by congruence. lia.
    + rewrite lookup_insert_ne by done. exists n2. split; [done | lia].
Qed.

(** Every outcome in [Es] is the depth-limit value or what the game
    reported for a board of that key; every expanded position was
    reported as not ended. *)
Record wf_origin (st : MCTS) : Prop := {
  wo_outcome : ∀ s e, Es st !! s = Some e →
                 e = DEPTH_LIMIT_VALUE
                 ∨ ∃ b, key b = s ∧ e = getGameEnded game b 1;
  wo_expanded : ∀ s, is_Some (Ps st !! s) →
                  ∃ b, key b = s ∧ (getGameEnded game b 1 == 0)%Q
}.

Lemma wf_origin_init : wf_origin init.
Proof.
  split.
  - intros s e H. cbn in H. by rewrite lookup_empty in H.
  - intros s [x H]. cbn in H. by rewrite lookup_empty in H.
Qed.

Lemma wf_origin_memoize st board : wf_origin st → wf_origin (memoize st board).
Proof.
  intros [He Hp]. unfold memoize. destruct (Es st !! key board) eqn:Hk; [done|].
  split; [|done]. cbn. intros s' e.
  destruct (decide (key board = s')) as [<-|Hne].
  - rewrite lookup_insert_eq. intros [= <-]. right. by exists board.
  - rewrite lookup_insert_ne by done. apply He.
Qed.

Lemma search_run_wf_origin st board depth r path lf st' :
  search_run st board depth r path lf st' → wf_origin st → wf_origin st'.
Proof.
  induction 1 as [st board depth Hd
                 |st board depth e Hd He Hz
                 |st board depth e r st' Hd He Hz Hp Hx
                 |st board depth e ps valids a nb np v path lf st2 r st3
                    Hd He Hz Hp Hv Hs Hn Hrun IH Hb]; intros Hwo.
  - destruct Hwo as [He Hp]. split; [|done]. cbn. intros s' e.
    destruct (decide (key board = s')) as [<-|Hne].
    + rewrite lookup_insert_eq. intros [= <-]. by left.
    + rewrite lookup_insert_ne by done. apply He.
  - by apply wf_origin_memoize.
  - destruct (wf_origin_memoize _ board Hwo) as [He1 Hp1].
    apply expand_Ret in Hx as (_ & p & ->). split; [done|]. cbn.
    intros s' Hs'. destruct (decide (key board = s')) as [<-|Hne].
    + destruct (He1 _ _ He) as [->|(b & Hb & ->)]; [discriminate|].
      exists b. split; [done|]. by apply Qeq_bool_iff.
    + rewrite lookup_insert_ne in Hs' by done. by apply Hp1.
  - specialize (IH (wf_origin_memoize _ board Hwo)). destruct IH as [He2 Hp2].
    destruct (backup_elsewhere _ _ _ _ _ _ Hb) as (HE & HP & _).
    split; [by rewrite HE | by rewrite HP].
Qed.

Lemma reachable_wf_origin st : reachable st → wf_origin st.
Proof.
  induction 1 as [|fuel st board depth [r [path lf]] st' _ IH Hs];
    [apply wf_origin_init|].
  apply search_sound in Hs. by eapply search_run_wf_origin.
Qed.

(** *** Values stay in [-1, 1] *)

Lemma running_mean_bounded (n : Z) (q v : Q) :
  1 ≤ n → (-1 <= q)%Q ∧ (q <= 1)%Q → (-1 <= v)%Q ∧ (v <= 1)%Q →
  (-1 <= (inject_Z n * q + v) / (inject_Z n + 1))%Q
  ∧ ((inject_Z n * q + v) / (inject_Z n + 1) <= 1)%Q.
Proof.
  intros Hn [Hq1 Hq2] [Hv1 Hv2].
  assert (HN : (1 <= inject_Z n)%Q).
  { change 1%Q with (inject_Z 1). by rewrite <- Zle_Qle. }
  set (N := inject_Z n) in *.
  assert (H1 : (0 <= N * (q + 1))%Q) by (apply Qmult_le_0_compat; lra).
  assert (H2 : (0 <= N * (1 - q))%Q) by (apply Qmult_le_0_compat; lra).
  split.
  - apply Qle_shift_div_l; [lra|]. lra.
  - apply Qle_shift_div_r; [lra|]. lra.
Qed.

Record bounded (st : MCTS) : Prop := {
  bd_Qsa : ∀ k q, Qsa st !! k = Some q → (-1 <= q)%Q ∧ (q <= 1)%Q;
  bd_Es : ∀ s e, Es st !! s = Some e → (-1 <= e)%Q ∧ (e <= 1)%Q
}.

Lemma bounded_init : bounded init.
Proof. split; intros k x H; cbn in H; by rewrite lookup_empty in H. Qed.

Section Bounded.
Hypothesis outcome_bounded :
  ∀ b, (-1 <= getGameEnded game b 1)%Q ∧ (getGameEnded game b 1 <= 1)%Q.
Hypothesis value_bounded :
  ∀ b, (-1 <= snd (predict nnet b))%Q ∧ (snd (predict nnet b) <= 1)%Q.

Lemma bounded_memoize st board : bounded st → bounded (memoize st board).
Proof.
  intros [HQ HE]. unfold memoize. destruct (Es st !! key board) eqn:Hk; [done|].
  split; [done|]. cbn. intros s e.
  destruct (decide (key board = s)) as [<-|Hne].
  - rewrite lookup_insert_eq. intros [= <-]. apply outcome_bounded.
  - rewrite lookup_insert_ne by done. apply HE.
Qed.

Lemma search_run_bounded st board depth r path lf st' :
  search_run st board depth r path lf st' → wf st → bounded st →
  bounded st' ∧ (-1 <= r)%Q ∧ (r <= 1)%Q.
Proof.
  induction 1 as [st board depth Hd
                 |st board depth e Hd He Hz
                 |st board depth e r st' Hd He Hz Hp Hx
                 |st board depth e ps valids a nb np v path lf st2 r st3
                    Hd He Hz Hp Hv Hs Hn Hrun IH Hb]; intros Hw Hbd.
  - split; [|unfold DEPTH_LIMIT_VALUE; lra].
    destruct Hbd as [HQ HE]. split; [done|]. cbn. intros s e.
    destruct (decide (key board = s)) as [<-|Hne].
    + rewrite lookup_insert_eq. intros [= <-]. unfold DEPTH_LIMIT_VALUE. lra.
    + rewrite lookup_insert_ne by done. apply HE.
  - pose proof (bounded_memoize _ board Hbd) as Hbd1.
    split; [done|]. destruct (bd_Es _ Hbd1 _ _ He). lra.
  - destruct (bounded_memoize _ board Hbd) as [HQ1 HE1].
    destruct (expand_edges _ _ _ _ _ Hx) as (HQ & _ & HE).
    apply expand_Ret in Hx as (-> & _).
    split; [split; [by rewrite HQ | by rewrite HE]|].
    destruct (value_bounded (observe board)). lra.
  - pose proof (wf_memoize _ board Hw) as Hw1.
    destruct (IH Hw1 (bounded_memoize _ board Hbd)) as ([HQ2 HE2] & Hv1 & Hv2).
    destruct (search_run_wf _ _ _ _ _ _ _ Hrun Hw1) as [Hw2 _].
    apply backup_Ret in Hb as (-> & q' & n' & ns & _ & -> & Hcase).
    split; [|lra]. split; [|done]. cbn. intros k q.
    destruct (decide ((key board, a) = k)) as [<-|Hne].
    + rewrite lookup_insert_eq. intros [= <-].
      destruct Hcase as [(_ & -> & _)|(q0 & n0 & Hq0 & Hn0 & -> & _)]; [done|].
      apply running_mean_bounded; [by eapply wf_visits | by eapply HQ2 | done].
    + rewrite lookup_insert_ne by done. apply HQ2.
Qed.

Lemma reachable_bounded st : reachable st → bounded st.
Proof.
  induction 1 as [|fuel st board depth [r [path lf]] st' Hr IH Hs];
    [apply bounded_init|].
  apply search_sound in Hs.
  by destruct (search_run_bounded _ _ _ _ _ _ _ Hs (reachable_wf _ Hr) IH).
Qed.

End Bounded.

(** *** Exceptions *)

Lemma np_broadcast_mismatch {A1 A2 A3 : Type} (f : A1 → A2 → A3) xs ys :
  length xs ≠ length ys → length xs ≠ 1%nat → length ys ≠ 1%nat →
  np_broadcast f xs ys = None.
Proof.
  intros H H1 H2. unfold np_broadcast. rewrite decide_False by done.
  destruct xs as [|x [|x' xs]]; destruct ys as [|y [|y' ys]]; done.
Qed.

Lemma ucb_error st s a x :
  wf st → is_Some (Ps st !! s) → ucb st s a = inl x → x = IndexError.
Proof.
  intros Hw Hp. destruct (wf_tables _ Hw s Hp) as [_ [ns Hns]].
  destruct Hp as [ps Hp]. unfold ucb. rewrite Hp, Hns.
  destruct (Qsa st !! (s, Z.of_nat a)) as [q|] eqn:Hq.
  - destruct (proj1 (wf_edges _ Hw (s, Z.of_nat a))) as [n ->]; [by rewrite Hq|].
    destruct (ps !! a); [discriminate | by intros [= <-]].
  - destruct (ps !! a); [discriminate | by intros [= <-]].
Qed.

Lemma select_loop_error st s valids acts : ∀ cur_best best_act x,
  wf st → is_Some (Ps st !! s) →
  select_loop st s valids acts cur_best best_act = inl x → x = IndexError.
Proof.
  induction acts as [|a acts IH]; intros cb ba x Hw Hp; cbn; [discriminate|].
  destruct (valids !! a) as [[|]|]; [|by apply IH|by intros [= <-]].
  destruct (ucb st s a) as [y|u] eqn:Hu.
  - intros [= <-]. by eapply ucb_error.
  - destruct (gt_best u cb); by apply IH.
Qed.

(** On well-formed tables a call that raises has raised in selection
    (an index out of range), in the expansion (shapes) or in the game; it
    has backed nothing up: the values and counts are as they were. *)
Lemma search_raises fuel : ∀ st board depth x st',
  wf st → search fuel st board depth = Exc x st' →
  (x = IndexError ∨ x = ValueError ∨ x = OracleError)
  ∧ Qsa st' = Qsa st ∧ Nsa st' = Nsa st ∧ Ns st' = Ns st.
Proof.
  induction fuel as [|fuel IH]; intros st board depth x st' Hw H; [discriminate|].
  cbn [search] in H.
  destruct (max_tree_depth <=? depth); [discriminate|].
  pose proof (wf_memoize _ board Hw) as Hw1.
  destruct (memoize_edges st board) as [HQ1 HN1].
  destruct (memoize_tables st board) as (_ & _ & Hn1).
  destruct (memoize_recorded st board) as [e He]. rewrite He in H.
  destruct (negb (Qeq_bool e 0)); [discriminate|].
  destruct (Ps (memoize st board) !! key board) as [ps|] eqn:Hp.
  2:{ unfold expand in H. destruct (predict nnet (observe board)) as [pi v].
      destruct (np_broadcast _ pi _) as [masked|].
      - destruct (Qgtb _ _); [discriminate|].
        destruct (np_broadcast _ masked _); [discriminate|].
        inversion H; subst. cbn. by rewrite HQ1, HN1, Hn1; auto.
      - inversion H; subst. cbn. by rewrite HQ1, HN1, Hn1; auto. }
  assert (Hps : is_Some (Ps (memoize st board) !! key board)) by by rewrite Hp.
  destruct (wf_tables _ Hw1 _ Hps) as [[valids Hv] [ns Hns]]. rewrite Hv in H.
  destruct (select (memoize st board) (key board) valids) as [y|a] eqn:Hs.
  { inversion H; subst. rewrite HQ1, HN1, Hn1. split; [|done]. left.
    by eapply select_loop_error. }
  destruct (getNextState game board 1 a) as [[nb np]|].
  2:{ inversion H; subst. rewrite HQ1, HN1, Hn1. auto. }
  destruct (search fuel (memoize st board) _ _) as [[v [path lf]] st2|y st2|]
    eqn:Hrec; [| |discriminate].
  - destruct (search_wf _ _ _ _ _ _ Hrec Hw1) as [Hw2 Hf2].
    destruct (frame_Ns _ _ Hf2 _ _ Hns) as (ns' & Hns' & _).
    destruct (backup_returns st2 (key board) a v Hw2) as (r & st3 & Hb);
      [by rewrite Hns'|].
    rewrite Hb in H. discriminate.
  - inversion H; subst.
    destruct (IH _ _ _ _ _ Hw1 Hrec) as (Hx & -> & -> & ->).
    by rewrite HQ1, HN1, Hn1.
Qed.

(** A mask shorter than the action space makes selection raise. *)
Lemma select_loop_short_mask st s ps ns valids len : ∀ lo cur_best best_act,
  Ps st !! s = Some ps → Ns st !! s = Some ns →
  (∀ k, is_Some (Qsa st !! k) → is_Some (Nsa st !! k)) →
  (length valids ≤ length ps)%nat →
  (lo ≤ length valids < lo + len)%nat →
  select_loop st s valids (seq lo len) cur_best best_act = inl IndexError.
Proof.
  induction len as [|len IH]; intros lo cb ba Hp Hn Hq Hlen Hlo; [lia|].
  cbn [seq select_loop].
  destruct (decide (lo = length valids)) as [->|Hne].
  { by rewrite lookup_ge_None_2. }
  destruct (lookup_lt_is_Some_2 valids lo ltac:(lia)) as [b ->].
  destruct b; [|apply IH; auto; lia].
  destruct (ucb_returns st s ps ns lo Hp Hn ltac:(lia) (Hq _)) as [u ->].
  destruct (gt_best u cb); apply IH; auto; lia.
Qed.

End Engine.

(** ** Runs on the toy collaborators *)

(** The tables of [loop_game] after two simulations with depth limit 3:
    the first expands the position, the second descends through it three
    times and meets the depth guard. *)
Definition loop_after_two : MCTS :=
  Eval vm_compute in
    match run_sims Toy.loop_game (Toy.const_net [1%Q] 0) (Toy.mk_args 2 3)
            Toy.sqrt_stub 2 init tt with
    | Ret _ st => st
    | _ => init
    end.

Lemma loop_after_two_reachable :
  reachable Toy.loop_game (Toy.const_net [1%Q] 0) (Toy.mk_args 2 3) Toy.sqrt_stub
    loop_after_two.
Proof.
  eapply (run_sims_reachable _ _ _ _ 2 init tt tt); [|apply reachable_init].
  vm_compute. reflexivity.
Qed.

(** The tables of [line_game] once the positions 2, 1 and 0 have each been
    the root of one simulation: all three are expanded and no edge has
    been descended yet. *)
Definition line_net : NNet Toy.pos := Toy.const_net [1 # 2; 1 # 2]%Q (1 # 4)%Q.

Definition line_expanded : MCTS :=
  Eval vm_compute in
    match search0 Toy.line_game line_net (Toy.mk_args 1 10) Toy.sqrt_stub
            init Toy.P2 with
    | Ret _ st1 =>
        match search0 Toy.line_game line_net (Toy.mk_args 1 10) Toy.sqrt_stub
                st1 Toy.P1 with
        | Ret _ st2 =>
            match search0 Toy.line_game line_net (Toy.mk_args 1 10)
                    Toy.sqrt_stub st2 Toy.P0 with
            | Ret _ st3 => st3
            | _ => init
            end
        | _ => init
        end
    | _ => init
    end.

(** ... and after one more simulation from position 0, which descends to
    the lost position 3. *)
Definition line_descended : MCTS :=
  Eval vm_compute in
    match search0 Toy.line_game line_net (Toy.mk_args 1 10) Toy.sqrt_stub
            line_expanded Toy.P0 with
    | Ret _ st => st
    | _ => init
    end.

Lemma line_descent :
  search Toy.line_game line_net (Toy.mk_args 1 10) Toy.sqrt_stub 11
    line_expanded Toy.P0 0
  = Ret ((-1)%Q, ([("0", 1); ("1", 1); ("2", 1)], AtTerminal "3" (-1)%Q))
        line_descended.
Proof. vm_compute. reflexivity. Qed.

(** The tables of [stuck_game] after the expansion of its position. *)
Definition stuck_expanded : MCTS :=
  Eval vm_compute in
    match search0 Toy.stuck_game (Toy.const_net [1 # 2; 1 # 2]%Q 0)
            (Toy.mk_args 2 2) Toy.sqrt_stub init tt with
    | Ret _ st => st
    | _ => init
    end.

Lemma stuck_expanded_reachable :
  reachable Toy.stuck_game (Toy.const_net [1 # 2; 1 # 2]%Q 0) (Toy.mk_args 2 2)
    Toy.sqrt_stub stuck_expanded.
Proof.
  eapply (reachable_search _ _ _ _ 3 init tt 0); [apply reachable_init|].
  vm_compute. reflexivity.
Qed.

(** ** The claims *)

(** C7.  For every game, evaluator and configuration, and whatever the
    tables hold, the call [search(board)] (depth 0) terminates: a budget of
    [maxMoves + 1] nested calls, the outermost one included, is never
    exhausted, so the call returns or raises; and when it returns it has
    made at most [maxMoves] recursive calls.  This holds in particular for
    a game that never reports a terminal state. *)
Theorem search_terminates_within_max_depth
    {B : Type} (game : Game B) (nnet : NNet B) (args : Args) (sqrt : Q → Q)
    (st : MCTS) (board : B) :
  completes (search game nnet args sqrt (S (Z.to_nat (maxMoves args))) st board 0)
  ∧ (calls_made (search0 game nnet args sqrt st board) ≤ Z.to_nat (maxMoves args))%nat.
Proof.
  split.
  - apply search_fuel_enough. unfold fuel_for, max_tree_depth.
    rewrite Z.sub_0_r. lia.
  - unfold calls_made.
    destruct (search0 game nnet args sqrt st board) as [[r [path lf]] st'| |] eqn:H;
      try lia.
    apply search_sound, search_run_path_bound in H.
    unfold max_tree_depth in H. by rewrite Z.sub_0_r in H.
Qed.

(** The bound of C7 is reached: in a game that loops forever, the second
    simulation makes exactly [maxMoves] recursive calls. *)
Example loop_game_reaches_depth_limit :
  ∃ st1 r1 st2 r2 path,
    search0 Toy.loop_game (Toy.const_net [1%Q] 0) (Toy.mk_args 2 3) Toy.sqrt_stub
      init tt = Ret r1 st1
    ∧ search0 Toy.loop_game (Toy.const_net [1%Q] 0) (Toy.mk_args 2 3) Toy.sqrt_stub
        st1 tt = Ret (r2, (path, AtDepthLimit "s")) st2
    ∧ length path = 3%nat.
Proof.
  do 5 eexists.
  split; [vm_compute; reflexivity|].
  split; [vm_compute; reflexivity|].
  reflexivity.
Qed.




(** The distribution of the witness: the second simulation loops through
    the first legal action down to the depth limit. *)
Example tri_game_distribution :
  ∃ st',
    getActionProb Toy.tri_game (Toy.const_net [1 # 3; 1 # 3; 1 # 3]%Q 0)
      (Toy.mk_args 3 3) Toy.sqrt_stub Toy.pow_stub init tt 1
    = Ret [0 # 3; 3 # 3; 0 # 3]%Q st'.
Proof. eexists. vm_compute. reflexivity. Qed.

(** The same three simulations at the temperature 1/2048: the count 3 of
    the legal action is raised to the power 2048, which is no float, and
    [getActionProb] raises [OverflowError]. *)
Example tri_game_overflow :
  ∃ st',
    getActionProb Toy.tri_game (Toy.const_net [1 # 3; 1 # 3; 1 # 3]%Q 0)
      (Toy.mk_args 3 3) Toy.sqrt_stub Toy.pow_steep init tt (1 # 2048)
    = Exc OverflowError st'.
Proof. eexists. vm_compute. reflexivity. Qed.


(** C2.  The backup step: with [Ns[s]] recorded, an edge [(s, a)] that
    already has a value [q] and a count [n] gets the running mean
    [(n * q + v) / (n + 1)] and the count [n + 1]; an edge without a value
    gets the value [v] and the count 1; in both cases [Ns[s]] grows by one
    and [-v] is returned.  One simulation: when a call of [search] returns
    having descended a path of pairwise distinct edges, none of which had
    a value before, then every edge of the path has count 1 and its value
    is the value of the leaf with the sign flipped once per ply between the
    edge and the leaf; the call itself returns the leaf value flipped once
    more per edge and once for the leaf.  With collaborators that respect
    their contract, a descent that ends at a terminal or newly expanded
    leaf repeats no edge, so its edges are pairwise distinct. *)
Theorem backup_running_mean_and_fresh_path
    {B : Type} (game : Game B) (nnet : NNet B) (args : Args) (sqrt : Q → Q) :
  (∀ st s a v ns, Ns st !! s = Some ns →
     (∀ q n, Qsa st !! (s, a) = Some q → Nsa st !! (s, a) = Some n →
        ∃ st', backup st s a v = Ret (- v)%Q st'
          ∧ Qsa st' !! (s, a) = Some ((inject_Z n * q + v) / (inject_Z n + 1))%Q
          ∧ Nsa st' !! (s, a) = Some (n + 1)
          ∧ Ns st' !! s = Some (ns + 1))
     ∧ (Qsa st !! (s, a) = None →
        ∃ st', backup st s a v = Ret (- v)%Q st'
          ∧ Qsa st' !! (s, a) = Some v
          ∧ Nsa st' !! (s, a) = Some 1
          ∧ Ns st' !! s = Some (ns + 1)))
  ∧ (∀ fuel st board depth r path lf st',
       search game nnet args sqrt fuel st board depth = Ret (r, (path, lf)) st' →
       NoDup path → (∀ k, k ∈ path → Qsa st !! k = None) →
       leaf_recorded st' lf
       ∧ r = flip (S (length path)) (leaf_value lf)
       ∧ ∀ (i : nat) k, path !! i = Some k →
           Nsa st' !! k = Some 1
           ∧ Qsa st' !! k = Some (flip (length path - i) (leaf_value lf)))
  ∧ (well_behaved game nnet →
     ∀ fuel st board depth r path lf st',
       search game nnet args sqrt fuel st board depth = Ret (r, (path, lf)) st' →
       (∀ s, lf ≠ AtDepthLimit s) → NoDup path).
Proof.
  split; [|split].
  - intros st s a v ns Hns. split.
    + intros q n Hq Hn. unfold backup. rewrite Hq, Hn. cbn. rewrite Hns.
      eexists. split; [done|]. cbn. by rewrite !lookup_insert_eq.
    + intros Hq. unfold backup. rewrite Hq. cbn. rewrite Hns.
      eexists. split; [done|]. cbn. by rewrite !lookup_insert_eq.
  - intros fuel st board depth r path lf st' Hs Hnd Hfresh.
    apply search_sound in Hs.
    split; [by eapply search_run_leaf|].
    by eapply search_run_fresh_path.
  - intros Hc fuel st board depth r path lf st' Hs Hlf.
    apply search_sound in Hs. by eapply search_run_no_repeat.
Qed.

Lemma line_game_well_behaved : well_behaved Toy.line_game line_net.
Proof.
  split.
  - intros [] [] H; try done; discriminate.
  - reflexivity.
  - reflexivity.
  - intros b _. exists 1%nat. split; [cbn; lia | reflexivity].
  - intros b a (i & -> & Hi & Hv). cbn in Hi.
    destruct i as [|[|i]]; [discriminate | by eexists | lia].
Qed.

Lemma backup_running_mean_and_fresh_path_witness :
  (∃ st', backup loop_after_two "s" 0 (1 # 2) = Ret (- (1 # 2))%Q st'
     ∧ Qsa st' !! ("s", 0)
       = Some ((inject_Z 3 * (-200000000 # 6000000000000) + (1 # 2))
               / (inject_Z 3 + 1))%Q
     ∧ Nsa st' !! ("s", 0) = Some (3 + 1)
     ∧ Ns st' !! "s" = Some (3 + 1))
  ∧ Es line_descended !! "3" = Some (-1)%Q
  ∧ (Nsa line_descended !! ("0", 1) = Some 1
     ∧ Qsa line_descended !! ("0", 1) = Some 1%Q)
  ∧ (Nsa line_descended !! ("1", 1) = Some 1
     ∧ Qsa line_descended !! ("1", 1) = Some (-1)%Q)
  ∧ (Nsa line_descended !! ("2", 1) = Some 1
     ∧ Qsa line_descended !! ("2", 1) = Some 1%Q).
Proof.
  destruct (backup_running_mean_and_fresh_path
              Toy.line_game line_net (Toy.mk_args 1 10) Toy.sqrt_stub)
    as (Hbackup & Hpath & Hdistinct).
  split.
  - apply (Hbackup loop_after_two "s" 0 (1 # 2)%Q 3); reflexivity.
  - destruct (Hpath 11%nat line_expanded Toy.P0 0 (-1)%Q
                [("0"%string, 1); ("1"%string, 1); ("2"%string, 1)]
                (AtTerminal "3" (-1)%Q) line_descended)
      as ([He _] & _ & Hedges).
    + exact line_descent.
    + apply (Hdistinct line_game_well_behaved _ _ _ _ _ _ _ _ line_descent).
      intros s. discriminate.
    + intros k Hk. reflexivity.
    + split; [exact He|].
      split; [exact (Hedges 0%nat _ eq_refl)|].
      split; [exact (Hedges 1%nat _ eq_refl) | exact (Hedges 2%nat _ eq_refl)].
Defined.

(** C3.  At an internal node [s] (policy [ps] and count [ns] recorded,
    vectors as long as the action space, every edge with a value also
    having a count) with at least one legal action, [select] returns an
    index [i] that is legal and whose score, [Qsa + cpuct * Ps[s][a] *
    sqrt(Ns[s]) / (1 + Nsa)] for an edge with a recorded value and
    [cpuct * Ps[s][a] * sqrt(Ns[s] + EPS)] otherwise, is at least the score of
    every legal action and strictly above the score of every legal action
    of lower index: exact ties go to the lowest index. *)
Theorem select_maximizes_ucb
    {B : Type} (game : Game B) (args : Args) (sqrt : Q → Q)
    (st : MCTS) (s : string) (valids : list bool) (ps : list Q) (ns : Z) :
  Ps st !! s = Some ps → Ns st !! s = Some ns →
  (getActionSize game ≤ length ps)%nat →
  (getActionSize game ≤ length valids)%nat →
  (∀ k, is_Some (Qsa st !! k) → is_Some (Nsa st !! k)) →
  has_legal game valids →
  ∃ i : nat,
    select game args sqrt st s valids = inr (Z.of_nat i)
    ∧ (i < getActionSize game)%nat ∧ valids !! i = Some true
    ∧ ∀ j : nat, (j < getActionSize game)%nat → valids !! j = Some true →
        (ucb_score args sqrt st s ps ns j <= ucb_score args sqrt st s ps ns i)%Q
        ∧ ((j < i)%nat →
           (ucb_score args sqrt st s ps ns j < ucb_score args sqrt st s ps ns i)%Q).
Proof.
  intros Hp Hn Hlp Hlv Hq Hlegal.
  destruct (select_loop_returns args sqrt st s ps ns valids
              (getActionSize game) 0%nat None (-1)) as [a Ha]; try done.
  fold (select game args sqrt st s valids) in Ha.
  destruct (select_best _ _ _ _ _ _ _ Ha) as [[u|] Hb]; cbn in Hb.
  - destruct Hb as (i & -> & Hi & Hiv & Hu & Hall).
    exists i. repeat split; try done.
    + destruct (Hall j H H0) as (u' & Hu' & Hle & _).
      by rewrite <- (ucb_is_score _ _ _ _ _ _ _ _ Hp Hn Hu),
                 <- (ucb_is_score _ _ _ _ _ _ _ _ Hp Hn Hu').
    + intros Hlt. destruct (Hall j H H0) as (u' & Hu' & _ & Hlt').
      rewrite <- (ucb_is_score _ _ _ _ _ _ _ _ Hp Hn Hu),
              <- (ucb_is_score _ _ _ _ _ _ _ _ Hp Hn Hu'). auto.
  - destruct Hb as [_ Hnone]. destruct Hlegal as (j & Hj & Hjv).
    by destruct (Hnone j Hj).
Qed.

Lemma select_maximizes_ucb_witness :
  ∃ i : nat,
    select Toy.tri_game (Toy.mk_args 2 3) Toy.sqrt_stub Toy.tri_expanded "s"
      [false; true; true] = inr (Z.of_nat i)
    ∧ (i < 3)%nat ∧ [false; true; true] !! i = Some true
    ∧ ∀ j : nat, (j < 3)%nat → [false; true; true] !! j = Some true →
        (ucb_score (Toy.mk_args 2 3) Toy.sqrt_stub Toy.tri_expanded "s"
           [0%Q; 1 # 2; 1 # 2] 0 j
         <= ucb_score (Toy.mk_args 2 3) Toy.sqrt_stub Toy.tri_expanded "s"
              [0%Q; 1 # 2; 1 # 2] 0 i)%Q
        ∧ ((j < i)%nat →
           (ucb_score (Toy.mk_args 2 3) Toy.sqrt_stub Toy.tri_expanded "s"
              [0%Q; 1 # 2; 1 # 2] 0 j
            < ucb_score (Toy.mk_args 2 3) Toy.sqrt_stub Toy.tri_expanded "s"
                [0%Q; 1 # 2; 1 # 2] 0 i)%Q).
Proof.
  apply (select_maximizes_ucb Toy.tri_game (Toy.mk_args 2 3) Toy.sqrt_stub
           Toy.tri_expanded "s" [false; true; true] [0%Q; 1 # 2; 1 # 2] 0).
  - reflexivity.
  - reflexivity.
  - cbn. lia.
  - cbn. lia.
  - intros k [q Hq]. cbn in Hq. by rewrite lookup_empty in Hq.
  - exists 1%nat. split; [cbn; lia | reflexivity].
Defined.

(** Two legal actions with equal scores: the one of lower index wins. *)
Example select_tie_goes_to_lowest_index :
  select Toy.tri_game (Toy.mk_args 2 3) Toy.sqrt_stub Toy.tri_expanded "s"
    [false; true; true] = inr 1
  ∧ ucb (Toy.mk_args 2 3) Toy.sqrt_stub Toy.tri_expanded "s" 1
    = ucb (Toy.mk_args 2 3) Toy.sqrt_stub Toy.tri_expanded "s" 2.
Proof. split; vm_compute; reflexivity. Qed.

(** C8.  In the tables left by any sequence of completed simulations,
    the visit count [Ns[s]] of every expanded position [s] is the sum of
    the counts [Nsa[(s, a)]] of all edges recorded at [s]; and when the mask
    stored for [s] has a legal action, these edges all carry indices of the
    action space, so that [Ns[s]] is the sum of [Nsa[(s, a)]] over
    [a in range(getActionSize())], absent edges counting 0. *)
Theorem visit_count_is_sum_of_edge_counts
    {B : Type} (game : Game B) (nnet : NNet B) (args : Args) (sqrt : Q → Q)
    (st : MCTS) :
  reachable game nnet args sqrt st →
  ∀ s ns, Ns st !! s = Some ns →
    ns = edge_sum (Nsa st) s
    ∧ (∀ valids, Vs st !! s = Some valids → has_legal game valids →
         ns = sumZ (root_counts game st s)).
Proof.
  intros Hr s ns Hns. apply reachable_wf in Hr.
  pose proof (wf_count _ _ Hr s ns Hns) as Hsum.
  split; [done|]. intros valids Hv Hlegal.
  rewrite Hsum. apply edge_sum_range.
  intros a Ha.
  destruct (wf_edge_mask _ _ Hr s a Ha) as (_ & valids' & Hv' & Hch & _).
  assert (valids' = valids) as -> by congruence.
  destruct (Hch Hlegal) as (i & -> & Hi & _). by exists i.
Qed.

Lemma visit_count_is_sum_of_edge_counts_witness :
  3 = edge_sum (Nsa loop_after_two) "s"
  ∧ 3 = sumZ (root_counts Toy.loop_game loop_after_two "s").
Proof.
  destruct (visit_count_is_sum_of_edge_counts
              Toy.loop_game (Toy.const_net [1%Q] 0) (Toy.mk_args 2 3)
              Toy.sqrt_stub loop_after_two loop_after_two_reachable "s" 3)
    as [Hall Hrange]; [reflexivity|].
  split; [exact Hall|].
  apply (Hrange [true]); [reflexivity|].
  exists 0%nat. split; [cbn; lia | reflexivity].
Defined.

(** The counts of the witness: three visits of the one position, all
    through its one edge. *)
Example loop_after_two_counts :
  Ns loop_after_two !! "s" = Some 3
  ∧ Nsa loop_after_two !! ("s", 0) = Some 3
  ∧ edge_sum (Nsa loop_after_two) "s" = 3.
Proof. repeat split; vm_compute; reflexivity. Qed.

(** C10.  Whenever selection returns at a node whose mask marks an action
    of the action space legal, the action returned is such a legal action,
    not the initial [-1]; therefore, in the tables left by any sequence of
    completed simulations, every key [(s, a)] of [Nsa] or [Qsa] has a mask
    stored for [s], the one the game gave for the board expanded under [s],
    and [a] is legal in it whenever it has a legal action at all. *)
Theorem recorded_edges_are_legal
    {B : Type} (game : Game B) (nnet : NNet B) (args : Args) (sqrt : Q → Q) :
  (∀ st s valids a,
     select game args sqrt st s valids = inr a →
     has_legal game valids → legal_action game valids a)
  ∧ (∀ st, reachable game nnet args sqrt st →
       ∀ s a, is_Some (Nsa st !! (s, a)) ∨ is_Some (Qsa st !! (s, a)) →
         ∃ board valids,
           stringRepresentation game board = s
           ∧ valids = getValidMoves game board 1
           ∧ Vs st !! s = Some valids
           ∧ (has_legal game valids → legal_action game valids a)).
Proof.
  split.
  - intros st s valids a Hs Hl. by apply (select_legal _ _ _ _ _ _ _ Hs).
  - intros st Hr s a Hk. apply reachable_wf in Hr.
    assert (Ha : is_Some (Nsa st !! (s, a))).
    { destruct Hk as [?|Hq]; [done|]. by apply (wf_edges _ _ Hr). }
    destruct (wf_edge_mask _ _ Hr s a Ha) as (_ & valids & Hv & Hch & _).
    destruct (wf_mask_origin _ _ Hr s valids Hv) as (board & Hb & Hvb).
    by exists board, valids.
Qed.

Lemma recorded_edges_are_legal_witness :
  legal_action Toy.loop_game [true] 0
  ∧ ∃ board valids,
      stringRepresentation Toy.loop_game board = "s"
      ∧ valids = getValidMoves Toy.loop_game board 1
      ∧ Vs loop_after_two !! "s" = Some valids
      ∧ (has_legal Toy.loop_game valids → legal_action Toy.loop_game valids 0).
Proof.
  destruct (recorded_edges_are_legal
              Toy.loop_game (Toy.const_net [1%Q] 0) (Toy.mk_args 2 3) Toy.sqrt_stub)
    as [Hsel Hreach].
  split.
  - apply (Hsel loop_after_two "s" [true] 0); [reflexivity|].
    exists 0%nat. split; [cbn; lia | reflexivity].
  - apply (Hreach loop_after_two loop_after_two_reachable "s" 0).
    left. vm_compute. eauto.
Defined.

(** C4.  Expansion of a position [s] whose mask has at least one legal
    action, for an evaluator policy of the length of the mask with no
    negative entry: [expand] returns [-v] and stores under [s] the mask,
    the count 0 and a policy that is non-negative, is 0 on every illegal
    action and sums to 1; when the masked evaluator policy sums to zero the
    stored policy is the uniform distribution over the legal actions. *)
Theorem expansion_stores_masked_distribution
    {B : Type} (game : Game B) (nnet : NNet B)
    (st : MCTS) (board : B) (pi : list Q) (v : Q) (j : nat) :
  let s := stringRepresentation game board in
  let valids := getValidMoves game board 1 in
  predict nnet (observe game board) = (pi, v) →
  length pi = length valids →
  Forall (λ p, (0 <= p)%Q) pi →
  valids !! j = Some true →
  ∃ st' ps,
    expand game nnet st board s = Ret (- v)%Q st'
    ∧ Ps st' !! s = Some ps ∧ Vs st' !! s = Some valids ∧ Ns st' !! s = Some 0
    ∧ masked_distribution valids ps
    ∧ ((np_sum (zip_with (λ p b, (p * b2q b)%Q) pi valids) == 0)%Q →
       uniform_over valids ps).
Proof.
  intros s valids Hpred Hlen Hpos Hj.
  unfold expand. rewrite Hpred. fold valids.
  rewrite np_broadcast_same_length by done.
  set (masked := zip_with (λ p b, (p * b2q b)%Q) pi valids).
  pose proof (masked_policy pi valids Hlen Hpos) as Hmasked. fold masked in Hmasked.
  assert (Hnn : Forall (λ x, (0 <= x)%Q) masked).
  { clear -Hmasked. induction Hmasked as [|? ? ? ? [? _] _ IH]; by constructor. }
  destruct (Qgtb (np_sum masked - 0) 0) eqn:Hgt.
  - apply Qgtb_true in Hgt. assert (Hsum : (0 < np_sum masked)%Q) by lra.
    do 2 eexists. split; [reflexivity|]. cbn. rewrite !lookup_insert_eq.
    repeat split; try done.
    + by apply renormalised_policy.
    + by apply np_sum_normalised.
    + intros Hz. lra.
  - apply Qgtb_false in Hgt.
    assert (Hzero : Forall (λ x, (x == 0)%Q) masked).
    { apply np_sum_zero; [done | lra]. }
    assert (Hlen' : length masked = length valids).
    { unfold masked. rewrite length_zip_with. lia. }
    rewrite np_broadcast_same_length by done.
    set (added := zip_with (λ p b, (p + b2q b)%Q) masked valids).
    pose proof (fallback_policy masked valids Hlen' Hzero) as Hadded.
    fold added in Hadded.
    pose proof (np_sum_mask _ _ Hadded) as Hcount.
    pose proof (uniform_policy _ _ _ Hcount Hadded) as Hunif.
    do 2 eexists. split; [reflexivity|]. cbn. rewrite !lookup_insert_eq.
    repeat split; try done.
    + by eapply uniform_is_distribution.
    + apply np_sum_normalised. rewrite Hcount.
      apply count_legal_pos in Hj.
      change 0%Q with (inject_Z 0). rewrite <- Zlt_Qlt. lia.
Qed.

Lemma expansion_stores_masked_distribution_witness :
  ∃ st' ps,
    expand Toy.tri_game (Toy.const_net [1%Q; 0%Q; 0%Q] 0) init tt "s"
    = Ret (- 0)%Q st'
    ∧ Ps st' !! "s" = Some ps ∧ Vs st' !! "s" = Some [false; true; true]
    ∧ Ns st' !! "s" = Some 0
    ∧ masked_distribution [false; true; true] ps
    ∧ ((np_sum (zip_with (λ p b, (p * b2q b)%Q) [1%Q; 0%Q; 0%Q]
                  [false; true; true]) == 0)%Q →
       uniform_over [false; true; true] ps).
Proof.
  apply (expansion_stores_masked_distribution
           Toy.tri_game (Toy.const_net [1%Q; 0%Q; 0%Q] 0) init tt
           [1%Q; 0%Q; 0%Q] 0%Q 1%nat).
  - reflexivity.
  - reflexivity.
  - repeat constructor; vm_compute; discriminate.
  - reflexivity.
Defined.

(** The two paths of the renormalisation on [tri_game]: an evaluator that
    puts a quarter of its mass on the illegal action, and one that puts
    all of it there. *)
Example expansion_examples :
  (∃ st', expand Toy.tri_game (Toy.const_net [1 # 4; 1 # 4; 1 # 2]%Q 0) init tt "s"
          = Ret (- 0)%Q st'
          ∧ Ps st' !! "s" = Some [0 # 96; 32 # 96; 32 # 48]%Q)
  ∧ (∃ st', expand Toy.tri_game (Toy.const_net [1%Q; 0%Q; 0%Q] 0) init tt "s"
            = Ret (- 0)%Q st'
            ∧ Ps st' !! "s" = Some [0 # 2; 1 # 2; 1 # 2]%Q).
Proof. split; eexists; split; vm_compute; reflexivity. Qed.

(** C5, as the code has it.  The terminal check writes [Es[s]] only when
    [s] has no entry, but the depth guard writes unconditionally.  A call
    of [search] that returns leaves every entry of [Es] as it was, except
    the entry of the key at which it met the depth guard, which then holds
    [1e-4]; and a visit below the depth limit to a key with a nonzero entry
    [e] returns [-e] and changes nothing. *)
Theorem terminal_value_kept_except_at_depth_limit
    {B : Type} (game : Game B) (nnet : NNet B) (args : Args) (sqrt : Q → Q) :
  (∀ fuel st board depth r path lf st',
     search game nnet args sqrt fuel st board depth = Ret (r, (path, lf)) st' →
     ∀ s e, Es st !! s = Some e →
       Es st' !! s = Some e
       ∨ (lf = AtDepthLimit s ∧ Es st' !! s = Some DEPTH_LIMIT_VALUE))
  ∧ (∀ st board e, Es st !! stringRepresentation game board = Some e →
       memoize game st board = st)
  ∧ (∀ fuel st board depth e,
       depth < maxMoves args →
       Es st !! stringRepresentation game board = Some e →
       Qeq_bool e 0 = false →
       search game nnet args sqrt (S fuel) st board depth
       = Ret ((- e)%Q, ([], AtTerminal (stringRepresentation game board) e)) st).
Proof.
  split; [|split].
  - intros fuel st board depth r path lf st' Hs.
    apply search_sound in Hs. by eapply search_run_Es.
  - intros st board e He. by eapply memoize_known.
  - intros fuel st board depth e Hd He Hz. cbn [search].
    unfold max_tree_depth.
    destruct (maxMoves args <=? depth) eqn:E; [lia|].
    rewrite (memoize_known _ _ _ _ He), He, Hz. reflexivity.
Qed.

Lemma terminal_value_kept_except_at_depth_limit_witness :
  (Es line_descended !! "0" = Some 0%Q
   ∨ (AtTerminal "3" (-1)%Q = AtDepthLimit "0"
      ∧ Es line_descended !! "0" = Some DEPTH_LIMIT_VALUE))
  ∧ memoize Toy.line_game line_descended Toy.P3 = line_descended
  ∧ search Toy.line_game line_net (Toy.mk_args 1 10) Toy.sqrt_stub 1
      line_descended Toy.P3 3
    = Ret ((- -1)%Q, ([], AtTerminal "3" (-1)%Q)) line_descended.
Proof.
  destruct (terminal_value_kept_except_at_depth_limit
              Toy.line_game line_net (Toy.mk_args 1 10) Toy.sqrt_stub)
    as (Hkept & Hmemo & Hrevisit).
  split; [|split].
  - apply (Hkept _ _ _ _ _ _ _ _ line_descent "0" 0%Q). reflexivity.
  - apply (Hmemo line_descended Toy.P3 (-1)%Q). reflexivity.
  - apply (Hrevisit 0%nat line_descended Toy.P3 3 (-1)%Q).
    + cbn. lia.
    + reflexivity.
    + reflexivity.
Defined.

(** C5 as stated fails: an outcome memoised by the terminal check is
    overwritten by the depth guard.  With [maxMoves = 1] in a game whose
    one position loops to itself, the first simulation memoises [Es[s] = 0]
    and the second, reaching [s] again at depth 1, replaces it by [1e-4]. *)
Lemma memoized_outcome_overwritten :
  ∃ r1 st1 r2 st2,
    search0 Toy.loop_game (Toy.const_net [1%Q] 0) (Toy.mk_args 2 1) Toy.sqrt_stub
      init tt = Ret r1 st1
    ∧ search0 Toy.loop_game (Toy.const_net [1%Q] 0) (Toy.mk_args 2 1) Toy.sqrt_stub
        st1 tt = Ret r2 st2
    ∧ Es st1 !! "s" = Some 0%Q
    ∧ Es st2 !! "s" = Some (1 # 10000)%Q
    ∧ Es st2 !! "s" ≠ Es st1 !! "s".
Proof.
  do 4 eexists.
  split; [vm_compute; reflexivity|].
  split; [vm_compute; reflexivity|].
  split; [vm_compute; reflexivity|].
  split; [vm_compute; reflexivity|].
  vm_compute. discriminate.
Qed.

(** C9, as the code has it.  At an expanded position that is not
    terminal and whose mask marks no action of the action space legal, the
    engine raises nothing of its own: selection returns the initial [-1],
    which is handed to [getNextState] as the action.  If the game raises
    there, that exception ends the call; if it returns a successor the
    search goes on from it and backs up through the edge [(s, -1)]. *)
Theorem no_legal_action_descends_with_sentinel
    {B : Type} (game : Game B) (nnet : NNet B) (args : Args) (sqrt : Q → Q)
    (fuel : nat) (st : MCTS) (board : B) (depth : Z)
    (e : Q) (ps : list Q) (valids : list bool) :
  let s := stringRepresentation game board in
  depth < maxMoves args →
  Es st !! s = Some e → Qeq_bool e 0 = true →
  Ps st !! s = Some ps → Vs st !! s = Some valids →
  (getActionSize game ≤ length valids)%nat →
  ¬ has_legal game valids →
  select game args sqrt st s valids = inr (-1)
  ∧ (getNextState game board 1 (-1) = None →
     search game nnet args sqrt (S fuel) st board depth = Exc OracleError st)
  ∧ (∀ nb np, getNextState game board 1 (-1) = Some (nb, np) →
     search game nnet args sqrt (S fuel) st board depth
     = match search game nnet args sqrt fuel st
               (getCanonicalForm game nb np) (depth + 1) with
       | Ret (v, (path, lf)) st2 =>
           match backup st2 s (-1) v with
           | Ret r st3 => Ret (r, ((s, -1) :: path, lf)) st3
           | Exc x st3 => Exc x st3
           | OutOfFuel => OutOfFuel
           end
       | Exc x st2 => Exc x st2
       | OutOfFuel => OutOfFuel
       end).
Proof.
  intros s Hd He Hz Hp Hv Hlen Hno.
  pose proof (select_without_legal game args sqrt st s valids Hlen Hno) as Hsel.
  split; [exact Hsel|].
  assert (Hstep :
    search game nnet args sqrt (S fuel) st board depth
    = match getNextState game board 1 (-1) with
      | None => Exc OracleError st
      | Some (nb, np) =>
          match search game nnet args sqrt fuel st
                  (getCanonicalForm game nb np) (depth + 1) with
          | Ret (v, (path, lf)) st2 =>
              match backup st2 s (-1) v with
              | Ret r st3 => Ret (r, ((s, -1) :: path, lf)) st3
              | Exc x st3 => Exc x st3
              | OutOfFuel => OutOfFuel
              end
          | Exc x st2 => Exc x st2
          | OutOfFuel => OutOfFuel
          end
      end).
  { cbn [search]. unfold max_tree_depth.
    destruct (maxMoves args <=? depth) eqn:E; [lia|].
    fold s. rewrite (memoize_known _ _ _ _ He), He, Hz, Hp, Hv, Hsel.
    reflexivity. }
  split.
  - intros Hn. by rewrite Hstep, Hn.
  - intros nb np Hn. by rewrite Hstep, Hn.
Qed.

Lemma no_legal_action_descends_with_sentinel_witness :
  select Toy.stuck_game (Toy.mk_args 2 2) Toy.sqrt_stub stuck_expanded "s"
    [false; false] = inr (-1)
  ∧ (getNextState Toy.stuck_game tt 1 (-1) = None →
     search Toy.stuck_game (Toy.const_net [1 # 2; 1 # 2]%Q 0) (Toy.mk_args 2 2)
       Toy.sqrt_stub 3 stuck_expanded tt 0
     = Exc OracleError stuck_expanded)
  ∧ (∀ nb np, getNextState Toy.stuck_game tt 1 (-1) = Some (nb, np) →
     search Toy.stuck_game (Toy.const_net [1 # 2; 1 # 2]%Q 0) (Toy.mk_args 2 2)
       Toy.sqrt_stub 3 stuck_expanded tt 0
     = match search Toy.stuck_game (Toy.const_net [1 # 2; 1 # 2]%Q 0)
               (Toy.mk_args 2 2) Toy.sqrt_stub 2 stuck_expanded
               (getCanonicalForm Toy.stuck_game nb np) (0 + 1) with
       | Ret (v, (path, lf)) st2 =>
           match backup st2 "s" (-1) v with
           | Ret r st3 => Ret (r, (("s"%string, -1) :: path, lf)) st3
           | Exc x st3 => Exc x st3
           | OutOfFuel => OutOfFuel
           end
       | Exc x st2 => Exc x st2
       | OutOfFuel => OutOfFuel
       end).
Proof.
  eapply (no_legal_action_descends_with_sentinel
            Toy.stuck_game (Toy.const_net [1 # 2; 1 # 2]%Q 0) (Toy.mk_args 2 2)
            Toy.sqrt_stub 2 stuck_expanded tt 0 0%Q _ [false; false]).
  - cbn. lia.
  - reflexivity.
  - reflexivity.
  - reflexivity.
  - reflexivity.
  - cbn. lia.
  - intros (j & Hj & Hjv). cbn in Hj.
    destruct j as [|[|j]]; [discriminate | discriminate | lia].
Defined.

(** C9 as stated fails: no failure is raised.  In [stuck_game] the
    expanded, non-terminal position has no legal action; the next
    simulation returns normally, having descended twice through the edge
    of the action [-1] and recorded visits for it. *)
Lemma no_legal_action_is_not_an_error :
  Vs stuck_expanded !! "s" = Some [false; false]
  ∧ Es stuck_expanded !! "s" = Some 0%Q
  ∧ (∃ r lf st',
       search0 Toy.stuck_game (Toy.const_net [1 # 2; 1 # 2]%Q 0) (Toy.mk_args 2 2)
         Toy.sqrt_stub stuck_expanded tt
       = Ret (r, ([("s"%string, -1); ("s"%string, -1)], lf)) st'
       ∧ Nsa st' !! ("s", -1) = Some 2)
  ∧ ¬ ∃ x st',
        search0 Toy.stuck_game (Toy.const_net [1 # 2; 1 # 2]%Q 0) (Toy.mk_args 2 2)
          Toy.sqrt_stub stuck_expanded tt
        = Exc x st'.
Proof.
  split; [reflexivity|]. split; [reflexivity|]. split.
  - do 3 eexists. split; [vm_compute; reflexivity|]. vm_compute. reflexivity.
  - intros (x & st' & H). vm_compute in H. discriminate.
Qed.

(** C6, as the code has it.  When [search] is called with
    [depth >= maxMoves] it stores the fixed value [1e-4], which is
    positive, in [Es[s]] for the key [s] of the current board, leaves the
    other tables alone, and returns the negation [-1e-4] of the stored
    value without descending. *)
Theorem depth_guard_stores_positive_value
    {B : Type} (game : Game B) (nnet : NNet B) (args : Args) (sqrt : Q → Q)
    (fuel : nat) (st : MCTS) (board : B) (depth : Z) :
  maxMoves args ≤ depth →
  ∃ r st',
    search game nnet args sqrt (S fuel) st board depth
    = Ret (r, ([], AtDepthLimit (stringRepresentation game board))) st'
    ∧ Es st' !! stringRepresentation game board = Some DEPTH_LIMIT_VALUE
    ∧ r = (- DEPTH_LIMIT_VALUE)%Q
    ∧ (0 < DEPTH_LIMIT_VALUE)%Q
    ∧ (Qsa st', Nsa st', Ns st', Ps st', Vs st')
      = (Qsa st, Nsa st, Ns st, Ps st, Vs st).
Proof.
  intros Hd. do 2 eexists. split; [by apply depth_guard_fires|].
  cbn. rewrite lookup_insert_eq. done.
Qed.

Lemma depth_guard_stores_positive_value_witness :
  ∃ r st',
    search Toy.loop_game (Toy.const_net [1%Q] 0) (Toy.mk_args 1 2) Toy.sqrt_stub
      1 init tt 5
    = Ret (r, ([], AtDepthLimit "s")) st'
    ∧ Es st' !! "s" = Some DEPTH_LIMIT_VALUE
    ∧ r = (- DEPTH_LIMIT_VALUE)%Q
    ∧ (0 < DEPTH_LIMIT_VALUE)%Q
    ∧ (Qsa st', Nsa st', Ns st', Ps st', Vs st')
      = (Qsa init, Nsa init, Ns init, Ps init, Vs init).
Proof.
  apply (depth_guard_stores_positive_value
           Toy.loop_game (Toy.const_net [1%Q] 0) (Toy.mk_args 1 2) Toy.sqrt_stub
           0 init tt 5).
  cbn. lia.
Defined.

(** C6 as stated fails: the value memoized by the depth guard is not
    negative.  Calling [search] at depth 0 with [maxMoves = 0], no
    negative [e] is both stored in [Es] and returned negated. *)
Lemma depth_guard_value_not_negative :
  ¬ ∃ e r tr st',
      search Toy.loop_game (Toy.const_net [1%Q] 0) (Toy.mk_args 1 0) Toy.sqrt_stub
        1 init tt 0 = Ret (r, tr) st'
      ∧ Es st' !! "s" = Some e
      ∧ (e < 0)%Q
      ∧ r = (- e)%Q.
Proof.
  intros (e & r & tr & st' & Hs & He & Hneg & _).
  vm_compute in Hs. inversion Hs; subst; clear Hs.
  vm_compute in He. inversion He; subst; clear He.
  vm_compute in Hneg. discriminate.
Qed.

(** ** Further properties of [MCTS] *)

Module More.

(** One position with one legal action which the game refuses to play:
    [getNextState] raises. *)
Definition wall_game : Game unit := {|
  stringRepresentation := λ _, "s"%string;
  getGameEnded := λ _ _, 0%Q;
  getValidMoves := λ _ _, [true];
  getNextState := λ _ _ _, None;
  getCanonicalForm := λ b _, b;
  getActionSize := 1;
  is_DarkChessGame := false;
  getDarkness := λ b _, b |}.

(** A game whose mask has one entry for an action space of two. *)
Definition short_game : Game unit := {|
  stringRepresentation := λ _, "s"%string;
  getGameEnded := λ _ _, 0%Q;
  getValidMoves := λ _ _, [true];
  getNextState := λ b _ _, Some (b, -1);
  getCanonicalForm := λ b _, b;
  getActionSize := 2;
  is_DarkChessGame := false;
  getDarkness := λ b _, b |}.

(** A position that is won for the player to move. *)
Definition over_game : Game unit := {|
  stringRepresentation := λ _, "s"%string;
  getGameEnded := λ _ _, 1%Q;
  getValidMoves := λ _ _, [true; true];
  getNextState := λ b _ _, Some (b, -1);
  getCanonicalForm := λ b _, b;
  getActionSize := 2;
  is_DarkChessGame := false;
  getDarkness := λ b _, b |}.

End More.

(** The tables of [wall_game] and of [short_game] after the expansion of
    their position. *)
Definition wall_expanded : MCTS :=
  Eval vm_compute in
    match search0 More.wall_game (Toy.const_net [1%Q] 0) (Toy.mk_args 2 3)
            Toy.sqrt_stub init tt with
    | Ret _ st => st
    | _ => init
    end.

Definition short_expanded : MCTS :=
  Eval vm_compute in
    match search0 More.short_game (Toy.const_net [1%Q] 0) (Toy.mk_args 2 3)
            Toy.sqrt_stub init tt with
    | Ret _ st => st
    | _ => init
    end.

Lemma wall_expanded_reachable :
  reachable More.wall_game (Toy.const_net [1%Q] 0) (Toy.mk_args 2 3)
    Toy.sqrt_stub wall_expanded.
Proof.
  eapply (reachable_search _ _ _ _ 4 init tt 0); [apply reachable_init|].
  vm_compute. reflexivity.
Qed.

Lemma line_descended_reachable :
  reachable Toy.line_game line_net (Toy.mk_args 1 10) Toy.sqrt_stub
    line_descended.
Proof.
  eapply reachable_search; [|exact line_descent].
  eapply (reachable_search _ _ _ _ 11 _ Toy.P0 0).
  - eapply (reachable_search _ _ _ _ 11 _ Toy.P1 0).
    + eapply (reachable_search _ _ _ _ 11 init Toy.P2 0);
        [apply reachable_init|].
      vm_compute. reflexivity.
    + vm_compute. reflexivity.
  - vm_compute. reflexivity.
Qed.

Lemma line_expanded_reachable :
  reachable Toy.line_game line_net (Toy.mk_args 1 10) Toy.sqrt_stub
    line_expanded.
Proof.
  eapply (reachable_search _ _ _ _ 11 _ Toy.P0 0).
  - eapply (reachable_search _ _ _ _ 11 _ Toy.P1 0).
    + eapply (reachable_search _ _ _ _ 11 init Toy.P2 0);
        [apply reachable_init|].
      vm_compute. reflexivity.
    + vm_compute. reflexivity.
  - vm_compute. reflexivity.
Qed.

(** X1.  Temperature 0.  Once the simulations have returned, with a
    non-empty action space, [getActionProb] returns the vector that is 1
    at one index and 0 elsewhere; that index holds a maximal count of the
    root and every earlier index holds a strictly smaller one: ties go to
    the lowest index. *)
Theorem greedy_distribution_is_one_hot_on_first_maximum
    {B : Type} (game : Game B) (nnet : NNet B) (args : Args)
    (sqrt : Q → Q) (pow : Z → Q → exn + Q) (st : MCTS) (root : B) (temp : Q)
    (u : unit) (st' : MCTS) :
  run_sims game nnet args sqrt (numMCTSSims args) st root = Ret u st' →
  (temp == 0)%Q → (0 < getActionSize game)%nat →
  ∃ (r : nat) m,
    getActionProb game nnet args sqrt pow st root temp
    = Ret (<[r := 1%Q]> (replicate (getActionSize game) 0%Q)) st'
    ∧ (r < getActionSize game)%nat
    ∧ root_counts game st' (stringRepresentation game root) !! r = Some m
    ∧ (∀ (j : nat) x,
         root_counts game st' (stringRepresentation game root) !! j = Some x →
         x ≤ m)
    ∧ (∀ (j : nat) x, (j < r)%nat →
         root_counts game st' (stringRepresentation game root) !! j = Some x →
         x < m).
Proof.
  intros Hrun Htemp Hn. unfold getActionProb. rewrite Hrun.
  apply Qeq_bool_iff in Htemp. rewrite Htemp.
  set (counts := root_counts game st' (stringRepresentation game root)).
  assert (Hlen : length counts = getActionSize game)
    by apply root_counts_length.
  destruct (np_argmax_nonempty counts) as [r Hr].
  { intros E. rewrite E in Hlen. cbn in Hlen. lia. }
  rewrite Hr. destruct (np_argmax_first _ _ Hr) as (m & Hm & Hmax & Hfirst).
  exists r, m. rewrite Hlen. split; [done|].
  split; [|done]. rewrite <- Hlen. by eapply lookup_lt_Some.
Qed.

Lemma greedy_distribution_is_one_hot_on_first_maximum_witness :
  ∃ (r : nat) m st',
    getActionProb Toy.tri_game (Toy.const_net [1 # 3; 1 # 3; 1 # 3]%Q 0)
      (Toy.mk_args 3 3) Toy.sqrt_stub Toy.pow_stub init tt 0
    = Ret (<[r := 1%Q]> (replicate 3 0%Q)) st'
    ∧ (r < 3)%nat
    ∧ root_counts Toy.tri_game st' "s" !! r = Some m
    ∧ (∀ (j : nat) x, root_counts Toy.tri_game st' "s" !! j = Some x → x ≤ m)
    ∧ (∀ (j : nat) x, (j < r)%nat →
         root_counts Toy.tri_game st' "s" !! j = Some x → x < m).
Proof.
  destruct (run_sims Toy.tri_game (Toy.const_net [1 # 3; 1 # 3; 1 # 3]%Q 0)
              (Toy.mk_args 3 3) Toy.sqrt_stub 3 init tt) as [[] st'| |] eqn:Hrun.
  - destruct (greedy_distribution_is_one_hot_on_first_maximum
                Toy.tri_game (Toy.const_net [1 # 3; 1 # 3; 1 # 3]%Q 0)
                (Toy.mk_args 3 3) Toy.sqrt_stub Toy.pow_stub init tt 0%Q tt st')
      as (r & m & H); [exact Hrun | reflexivity | cbn; lia |].
    by exists r, m, st'.
  - vm_compute in Hrun. discriminate.
  - vm_compute in Hrun. discriminate.
Defined.




Lemma powers_zeros (pow : Z → Q → exn + Q) (e p : Q) (n : nat) :
  pow 0%Z e = inr p → powers pow e (replicate n 0) = inr (replicate n p).
Proof.
  intros Hp. induction n as [|n IH]; [done|].
  cbn [replicate powers]. by rewrite Hp, IH.
Qed.

Lemma np_sum_replicate_zero (n : nat) (p : Q) :
  (p == 0)%Q → (np_sum (replicate n p) == 0)%Q.
Proof.
  intros Hp. induction n as [|n IH]; [reflexivity|].
  cbn [replicate]. rewrite np_sum_cons. lra.
Qed.




(** X3.  A call of [search] that returns stores a policy and a mask for
    at most one position: when it ended by expanding the leaf [s], [s] had
    no policy before and has a policy and a mask now, and no other
    position's policy or mask changed; when it ended at a terminal
    position or at the depth limit, [Ps] and [Vs] are as they were. *)
Theorem simulation_expands_at_most_its_leaf
    {B : Type} (game : Game B) (nnet : NNet B) (args : Args) (sqrt : Q → Q)
    (fuel : nat) (st : MCTS) (board : B) (depth : Z)
    (r : Q) (path : list edge) (lf : leaf) (st' : MCTS) :
  search game nnet args sqrt fuel st board depth = Ret (r, (path, lf)) st' →
  match lf with
  | AtExpansion s _ =>
      Ps st !! s = None
      ∧ is_Some (Ps st' !! s) ∧ is_Some (Vs st' !! s)
      ∧ ∀ s', s' ≠ s → Ps st' !! s' = Ps st !! s' ∧ Vs st' !! s' = Vs st !! s'
  | _ => Ps st' = Ps st ∧ Vs st' = Vs st
  end.
Proof.
  intros H. apply search_sound in H. by eapply search_run_expands_leaf.
Qed.

Lemma simulation_expands_at_most_its_leaf_witness :
  Ps line_descended = Ps line_expanded ∧ Vs line_descended = Vs line_expanded.
Proof.
  exact (simulation_expands_at_most_its_leaf
           Toy.line_game line_net (Toy.mk_args 1 10) Toy.sqrt_stub
           11 line_expanded Toy.P0 0 _ _ _ _ line_descent).
Defined.

(** X4.  On tables left by returned calls, a further call that returns
    undoes nothing: the policy and the mask of an expanded position are
    kept as they are, and no [Ns] or [Nsa] count decreases. *)
Theorem statistics_only_grow
    {B : Type} (game : Game B) (nnet : NNet B) (args : Args) (sqrt : Q → Q)
    (fuel : nat) (st : MCTS) (board : B) (depth : Z)
    (r : Q * trace) (st' : MCTS) :
  reachable game nnet args sqrt st →
  search game nnet args sqrt fuel st board depth = Ret r st' →
  (∀ s ps, Ps st !! s = Some ps →
     Ps st' !! s = Some ps ∧ Vs st' !! s = Vs st !! s)
  ∧ (∀ s n, Ns st !! s = Some n → ∃ n', Ns st' !! s = Some n' ∧ n ≤ n')
  ∧ (∀ k n, Nsa st !! k = Some n → ∃ n', Nsa st' !! k = Some n' ∧ n ≤ n').
Proof.
  intros Hreach Hs. pose proof (reachable_wf _ _ _ _ _ Hreach) as Hw.
  destruct (search_wf _ _ _ _ _ _ _ _ _ _ Hs Hw) as [_ Hf].
  split; [|split].
  - intros s ps Hp. assert (Hps : is_Some (Ps st !! s)) by by rewrite Hp.
    split; [by rewrite (frame_Ps _ _ Hf) | by apply (frame_Vs _ _ Hf)].
  - apply (frame_Ns _ _ Hf).
  - destruct r as [r [path lf]]. apply search_sound in Hs.
    by eapply search_run_Nsa_mono.
Qed.

Lemma statistics_only_grow_witness :
  (∀ s ps, Ps line_expanded !! s = Some ps →
     Ps line_descended !! s = Some ps
     ∧ Vs line_descended !! s = Vs line_expanded !! s)
  ∧ (∀ s n, Ns line_expanded !! s = Some n →
       ∃ n', Ns line_descended !! s = Some n' ∧ n ≤ n')
  ∧ (∀ k n, Nsa line_expanded !! k = Some n →
       ∃ n', Nsa line_descended !! k = Some n' ∧ n ≤ n').
Proof.
  exact (statistics_only_grow
           Toy.line_game line_net (Toy.mk_args 1 10) Toy.sqrt_stub
           11 line_expanded Toy.P0 0 _ _ line_expanded_reachable line_descent).
Defined.

(** X5.  When the game's outcomes and the evaluator's values lie in
    [-1, 1], so does every value in [Qsa] of tables left by returned calls,
    and so does the value a further call of [search] returns. *)
Theorem values_stay_in_unit_interval
    {B : Type} (game : Game B) (nnet : NNet B) (args : Args) (sqrt : Q → Q)
    (st : MCTS) :
  (∀ b, (-1 <= getGameEnded game b 1)%Q ∧ (getGameEnded game b 1 <= 1)%Q) →
  (∀ b, (-1 <= snd (predict nnet b))%Q ∧ (snd (predict nnet b) <= 1)%Q) →
  reachable game nnet args sqrt st →
  (∀ k q, Qsa st !! k = Some q → (-1 <= q)%Q ∧ (q <= 1)%Q)
  ∧ (∀ fuel board depth r tr st',
       search game nnet args sqrt fuel st board depth = Ret (r, tr) st' →
       (-1 <= r)%Q ∧ (r <= 1)%Q).
Proof.
  intros Hg Hv Hreach.
  pose proof (reachable_bounded game nnet args sqrt Hg Hv st Hreach) as Hbd.
  split; [apply (bd_Qsa _ Hbd)|].
  intros fuel board depth r [path lf] st' Hs. apply search_sound in Hs.
  by destruct (search_run_bounded game nnet args sqrt Hg Hv _ _ _ _ _ _ _ Hs
                 (reachable_wf _ _ _ _ _ Hreach) Hbd) as [_ ?].
Qed.

Lemma values_stay_in_unit_interval_witness :
  (∀ k q, Qsa line_descended !! k = Some q → (-1 <= q)%Q ∧ (q <= 1)%Q)
  ∧ (∀ fuel board depth r tr st',
       search Toy.line_game line_net (Toy.mk_args 1 10) Toy.sqrt_stub
         fuel line_descended board depth = Ret (r, tr) st' →
       (-1 <= r)%Q ∧ (r <= 1)%Q).
Proof.
  apply (values_stay_in_unit_interval
           Toy.line_game line_net (Toy.mk_args 1 10) Toy.sqrt_stub).
  - intros []; cbn; split; vm_compute; discriminate.
  - intros b. cbn. split; vm_compute; discriminate.
  - exact line_descended_reachable.
Defined.

(** X6.  On tables left by returned calls, a call of [search] that raises
    has raised [IndexError] (selection), [ValueError] (expansion) or the
    game's own exception, never [KeyError]; and it has backed nothing up:
    [Qsa], [Nsa] and [Ns] are exactly as before the call. *)
Theorem failed_simulation_backs_nothing_up
    {B : Type} (game : Game B) (nnet : NNet B) (args : Args) (sqrt : Q → Q)
    (fuel : nat) (st : MCTS) (board : B) (depth : Z) (x : exn) (st' : MCTS) :
  reachable game nnet args sqrt st →
  search game nnet args sqrt fuel st board depth = Exc x st' →
  (x = IndexError ∨ x = ValueError ∨ x = OracleError)
  ∧ Qsa st' = Qsa st ∧ Nsa st' = Nsa st ∧ Ns st' = Ns st.
Proof.
  intros Hreach Hs. eapply search_raises; [|exact Hs].
  by eapply reachable_wf.
Qed.

Lemma failed_simulation_backs_nothing_up_witness :
  search More.wall_game (Toy.const_net [1%Q] 0) (Toy.mk_args 2 3) Toy.sqrt_stub
    4 wall_expanded tt 0 = Exc OracleError wall_expanded
  ∧ (OracleError = IndexError ∨ OracleError = ValueError
     ∨ OracleError = OracleError)
  ∧ Qsa wall_expanded = Qsa wall_expanded
  ∧ Nsa wall_expanded = Nsa wall_expanded
  ∧ Ns wall_expanded = Ns wall_expanded.
Proof.
  assert (H : search More.wall_game (Toy.const_net [1%Q] 0) (Toy.mk_args 2 3)
                Toy.sqrt_stub 4 wall_expanded tt 0
              = Exc OracleError wall_expanded) by (vm_compute; reflexivity).
  split; [exact H|].
  exact (failed_simulation_backs_nothing_up
           More.wall_game (Toy.const_net [1%Q] 0) (Toy.mk_args 2 3) Toy.sqrt_stub
           4 wall_expanded tt 0 OracleError wall_expanded
           wall_expanded_reachable H).
Defined.



(** X8.  A mask shorter than the action space makes selection raise
    [IndexError], also when the mask marks a legal action: the loop reads
    [valids[a]] for every [a] of the action space.  The call of [search] at
    such a position, not over and below the depth limit, raises it with the
    tables unchanged. *)
Theorem short_mask_raises_index_error
    {B : Type} (game : Game B) (nnet : NNet B) (args : Args) (sqrt : Q → Q)
    (fuel : nat) (st : MCTS) (board : B) (depth : Z)
    (e : Q) (valids : list bool) (ps : list Q) (ns : Z) :
  let s := stringRepresentation game board in
  Ps st !! s = Some ps → Ns st !! s = Some ns → Vs st !! s = Some valids →
  (∀ k, is_Some (Qsa st !! k) → is_Some (Nsa st !! k)) →
  (length valids < getActionSize game)%nat →
  (length valids ≤ length ps)%nat →
  depth < maxMoves args → Es st !! s = Some e → Qeq_bool e 0 = true →
  select game args sqrt st s valids = inl IndexError
  ∧ search game nnet args sqrt (S fuel) st board depth = Exc IndexError st.
Proof.
  intros s Hp Hn Hv Hq Hshort Hlen Hd He Hz.
  assert (Hsel : select game args sqrt st s valids = inl IndexError).
  { unfold select. eapply select_loop_short_mask; eauto. lia. }
  split; [exact Hsel|].
  cbn [search]. unfold max_tree_depth.
  destruct (maxMoves args <=? depth) eqn:E; [lia|].
  fold s. by rewrite (memoize_known game st board e He), He, Hz, Hp, Hv, Hsel.
Qed.

Lemma short_mask_raises_index_error_witness :
  select More.short_game (Toy.mk_args 2 3) Toy.sqrt_stub short_expanded "s" [true]
  = inl IndexError
  ∧ search More.short_game (Toy.const_net [1%Q] 0) (Toy.mk_args 2 3)
      Toy.sqrt_stub 1 short_expanded tt 0
    = Exc IndexError short_expanded.
Proof.
  eapply (short_mask_raises_index_error
            More.short_game (Toy.const_net [1%Q] 0) (Toy.mk_args 2 3)
            Toy.sqrt_stub 0 short_expanded tt 0 0%Q [true] _ 0).
  - reflexivity.
  - reflexivity.
  - reflexivity.
  - intros k [q Hq]. change (Qsa short_expanded) with (∅ : gmap edge Q) in Hq.
    by rewrite lookup_empty in Hq.
  - cbn. lia.
  - cbn. lia.
  - cbn. lia.
  - reflexivity.
  - reflexivity.
Defined.

(** X9.  In tables left by returned calls, every outcome stored in [Es]
    is the depth-limit value [1e-4] or the value the game reported for a
    board with that key, and every position with a stored policy has a
    board the game reported as not ended: a finished position is never
    expanded. *)
Theorem only_unfinished_positions_are_expanded
    {B : Type} (game : Game B) (nnet : NNet B) (args : Args) (sqrt : Q → Q)
    (st : MCTS) :
  reachable game nnet args sqrt st →
  (∀ s e, Es st !! s = Some e →
     e = DEPTH_LIMIT_VALUE
     ∨ ∃ b, stringRepresentation game b = s ∧ e = getGameEnded game b 1)
  ∧ (∀ s, is_Some (Ps st !! s) →
       ∃ b, stringRepresentation game b = s ∧ (getGameEnded game b 1 == 0)%Q).
Proof.
  intros Hreach. apply reachable_wf_origin in Hreach as [He Hp]. by split.
Qed.

Lemma only_unfinished_positions_are_expanded_witness :
  (∀ s e, Es line_descended !! s = Some e →
     e = DEPTH_LIMIT_VALUE
     ∨ ∃ b, stringRepresentation Toy.line_game b = s
            ∧ e = getGameEnded Toy.line_game b 1)
  ∧ (∀ s, is_Some (Ps line_descended !! s) →
       ∃ b, stringRepresentation Toy.line_game b = s
            ∧ (getGameEnded Toy.line_game b 1 == 0)%Q).
Proof.
  exact (only_unfinished_positions_are_expanded
           Toy.line_game line_net (Toy.mk_args 1 10) Toy.sqrt_stub
           line_descended line_descended_reachable).
Defined.

Lemma search0_at_finished_position
    {B : Type} (game : Game B) (nnet : NNet B) (args : Args) (sqrt : Q → Q)
    (st : MCTS) (board : B) (e : Q) :
  0 < maxMoves args →
  Es st !! stringRepresentation game board = Some e → Qeq_bool e 0 = false →
  search0 game nnet args sqrt st board
  = Ret ((- e)%Q, ([], AtTerminal (stringRepresentation game board) e)) st.
Proof.
  intros Hmax He Hz. unfold search0, fuel_for. cbn [search].
  unfold max_tree_depth. destruct (maxMoves args <=? 0) eqn:E; [lia|].
  by rewrite (memoize_known game st board e He), He, Hz.
Qed.

Lemma run_sims_at_finished_position
    {B : Type} (game : Game B) (nnet : NNet B) (args : Args) (sqrt : Q → Q)
    (n : nat) (st : MCTS) (board : B) (e : Q) :
  0 < maxMoves args →
  Es st !! stringRepresentation game board = Some e → Qeq_bool e 0 = false →
  run_sims game nnet args sqrt n st board = Ret tt st.
Proof.
  intros Hmax He Hz. induction n as [|n IH]; [done|]. cbn [run_sims].
  by rewrite (search0_at_finished_position game nnet args sqrt st board e).
Qed.

Lemma root_counts_without_edges {B : Type} (game : Game B) (st : MCTS) s :
  Nsa st = ∅ → root_counts game st s = replicate (getActionSize game) 0.
Proof.
  intros Hn. unfold root_counts. rewrite Hn.
  generalize 0%nat. induction (getActionSize game) as [|n IH]; intros lo; [done|].
  cbn [seq map replicate]. by rewrite lookup_empty, IH.
Qed.

Lemma argmax_from_zeros n i : argmax_from (replicate n 0) i 0 0 = 0%nat.
Proof. revert i. induction n as [|n IH]; intros i; [done|]. cbn. apply IH. Qed.

Lemma sumZ_zeros n : sumZ (replicate n 0) = 0.
Proof. induction n as [|n IH]; [done|]. cbn [replicate]. by rewrite sumZ_cons, IH. Qed.

(** X10.  A root the game reports as over.  On new tables, with
    [maxMoves >= 1], every simulation returns at once: the tables after any
    positive number of simulations hold the memoised outcome and nothing
    else.  So, for a non-empty action space, [getActionProb] at temperature
    0 returns all mass on action 0, and at any other temperature (with
    [0 ** (1/temp) = 0]) raises [ZeroDivisionError]. *)
Theorem finished_root_collects_no_statistics
    {B : Type} (game : Game B) (nnet : NNet B) (args : Args)
    (sqrt : Q → Q) (pow : Z → Q → exn + Q) (root : B) (temp : Q) :
  let s := stringRepresentation game root in
  let st' := set_Es init s (getGameEnded game root 1) in
  Qeq_bool (getGameEnded game root 1) 0 = false →
  0 < maxMoves args → (1 ≤ numMCTSSims args)%nat →
  (0 < getActionSize game)%nat →
  run_sims game nnet args sqrt (numMCTSSims args) init root = Ret tt st'
  ∧ ((temp == 0)%Q →
     getActionProb game nnet args sqrt pow init root temp
     = Ret (<[0%nat := 1%Q]> (replicate (getActionSize game) 0%Q)) st')
  ∧ (¬ (temp == 0)%Q →
     (∃ p, pow 0%Z (1 / temp)%Q = inr p ∧ (p == 0)%Q) →
     getActionProb game nnet args sqrt pow init root temp
     = Exc ZeroDivisionError st').
Proof.
  intros s st' Hz Hmax Hn Hsize.
  assert (Hrun : run_sims game nnet args sqrt (numMCTSSims args) init root
                 = Ret tt st').
  { destruct (numMCTSSims args) as [|n]; [lia|]. cbn [run_sims].
    assert (H1 : search0 game nnet args sqrt init root
                 = Ret ((- getGameEnded game root 1)%Q,
                        ([], AtTerminal s (getGameEnded game root 1))) st').
    { unfold search0, fuel_for. cbn [search]. unfold max_tree_depth.
      destruct (maxMoves args <=? 0) eqn:E; [lia|].
      assert (Hm : memoize game init root = st').
      { unfold memoize. cbn. by rewrite lookup_empty. }
      rewrite Hm. fold s. unfold st' at 1. cbn [Es set_Es].
      by rewrite lookup_insert_eq, Hz. }
    rewrite H1.
    apply (run_sims_at_finished_position game nnet args sqrt n st' root
             (getGameEnded game root 1)); [done| |done].
    unfold st'. cbn. by rewrite lookup_insert_eq. }
  assert (Hcounts : root_counts game st' s = replicate (getActionSize game) 0).
  { by apply root_counts_without_edges. }
  split; [exact Hrun|]. split.
  - intros Ht. unfold getActionProb. rewrite Hrun. fold s.
    apply Qeq_bool_iff in Ht. rewrite Ht, Hcounts, length_replicate.
    destruct (getActionSize game) as [|n]; [lia|].
    cbn [replicate np_argmax]. by rewrite argmax_from_zeros.
  - intros Ht (p & Hpow & Hp0). unfold getActionProb. rewrite Hrun. fold s.
    destruct (Qeq_bool temp 0) eqn:E; [by apply Qeq_bool_iff in E|].
    rewrite Hcounts, (powers_zeros pow _ p _ Hpow).
    assert (Htot : Qeq_bool (np_sum (replicate (getActionSize game) p)) 0
                   = true).
    { by apply Qeq_bool_iff, np_sum_replicate_zero. }
    rewrite Htot.
    destruct (getActionSize game) as [|n]; [lia|]. done.
Qed.

Lemma finished_root_collects_no_statistics_witness :
  run_sims More.over_game (Toy.const_net [1 # 2; 1 # 2]%Q 0) (Toy.mk_args 5 3)
    Toy.sqrt_stub 5 init tt
  = Ret tt (set_Es init "s" 1%Q)
  ∧ ((1 == 0)%Q →
     getActionProb More.over_game (Toy.const_net [1 # 2; 1 # 2]%Q 0)
       (Toy.mk_args 5 3) Toy.sqrt_stub Toy.pow_stub init tt 1
     = Ret (<[0%nat := 1%Q]> (replicate 2 0%Q)) (set_Es init "s" 1%Q))
  ∧ (¬ (1 == 0)%Q →
     (∃ p, Toy.pow_stub 0 (1 / 1)%Q = inr p ∧ (p == 0)%Q) →
     getActionProb More.over_game (Toy.const_net [1 # 2; 1 # 2]%Q 0)
       (Toy.mk_args 5 3) Toy.sqrt_stub Toy.pow_stub init tt 1
     = Exc ZeroDivisionError (set_Es init "s" 1%Q)).
Proof.
  apply (finished_root_collects_no_statistics
           More.over_game (Toy.const_net [1 # 2; 1 # 2]%Q 0) (Toy.mk_args 5 3)
           Toy.sqrt_stub Toy.pow_stub tt 1%Q).
  - reflexivity.
  - cbn. lia.
  - cbn. lia.
  - cbn. lia.
Defined.

(** ** The action encoding of [learning/action.py]

    [MiniChessAction] describes a move by a piece, a type of move and a
    magnitude; [TYPE_DICT] and [MAG_DICT] decode the indices chosen by the
    network and [_calculate_new_pos] turns the type and the magnitude
    into the square moved to.  Rows, columns and magnitudes are Python
    integers. *)

Module Action.

Inductive ActionType : Type :=
  | KNIGHTWISE | MAJOR_DIAG | MINOR_DIAG | VERTICALLY | HORIZONTAL.

Definition TYPE_DICT : gmap Z ActionType :=
  list_to_map [(0, KNIGHTWISE); (1, MAJOR_DIAG); (2, MINOR_DIAG);
               (3, VERTICALLY); (4, HORIZONTAL)].

Definition MAG_DICT : gmap Z Z :=
  list_to_map [(0, -4); (1, -3); (2, -2); (3, -1);
               (4, 1); (5, 2); (6, 3); (7, 4)].

(** The exception of line 169. *)
Inductive error : Type := RuntimeError.

(** [MiniChessAction._calculate_new_pos], lines 138-169.  A knightwise
    action whose magnitude matches none of the eight tests leaves the
    first branch without returning and reaches the final [raise]. *)
Definition _calculate_new_pos (row col : Z) (_type : ActionType) (magnitude : Z)
    : error + Z * Z :=
  match _type with
  | KNIGHTWISE =>
      if magnitude =? -4 then inr (row - 2, col - 1)
      else if magnitude =? -3 then inr (row - 1, col - 2)
      else if magnitude =? -2 then inr (row + 1, col - 2)
      else if magnitude =? -1 then inr (row + 2, col - 1)
      else if magnitude =? 1 then inr (row + 2, col + 1)
      else if magnitude =? 2 then inr (row + 1, col + 2)
      else if magnitude =? 3 then inr (row - 1, col + 2)
      else if magnitude =? 4 then inr (row - 2, col + 1)
      else inl RuntimeError
  | MAJOR_DIAG => inr (row - magnitude, col + magnitude)
  | MINOR_DIAG => inr (row - magnitude, col - magnitude)
  | HORIZONTAL => inr (row, col + magnitude)
  | VERTICALLY => inr (row - magnitude, col)
  end.

Lemma MAG_DICT_lookup (i m : Z) :
  MAG_DICT !! i = Some m ↔
  0 ≤ i ≤ 7 ∧ m = (if i <? 4 then i - 4 else i - 3).
Proof.
  split.
  - intros H.
    destruct (decide (0 ≤ i ≤ 7)) as [Hi|Hi].
    + assert (i = 0 ∨ i = 1 ∨ i = 2 ∨ i = 3 ∨ i = 4 ∨ i = 5 ∨ i = 6 ∨ i = 7)
        as Hc by lia.
      destruct Hc as [->|[->|[->|[->|[->|[->|[->| ->]]]]]]];
        vm_compute in H; inversion H; subst; split; (lia || reflexivity).
    + exfalso. unfold MAG_DICT in H. apply elem_of_list_to_map_2 in H.
      repeat (apply elem_of_cons in H as [H|H]; [inversion H; subst; lia|]).
      by apply elem_of_nil in H.
  - intros [Hi ->].
    assert (i = 0 ∨ i = 1 ∨ i = 2 ∨ i = 3 ∨ i = 4 ∨ i = 5 ∨ i = 6 ∨ i = 7)
      as Hc by lia.
    destruct Hc as [->|[->|[->|[->|[->|[->|[->| ->]]]]]]]; reflexivity.
Qed.

Lemma MAG_DICT_range (i m : Z) :
  MAG_DICT !! i = Some m → -4 ≤ m ≤ 4 ∧ m ≠ 0.
Proof.
  intros H. apply MAG_DICT_lookup in H as [Hi ->].
  destruct (i <? 4) eqn:E; lia.
Qed.

Lemma magnitude_cases (m : Z) :
  -4 ≤ m ≤ 4 → m ≠ 0 →
  m = -4 ∨ m = -3 ∨ m = -2 ∨ m = -1 ∨ m = 1 ∨ m = 2 ∨ m = 3 ∨ m = 4.
Proof. lia. Qed.

Lemma new_pos_inj (a b c d : Z) :
  (inr (a, b) : error + Z * Z) = inr (c, d) → a = c ∧ b = d.
Proof. intros H. by inversion H. Qed.

End Action.


(** X11.  A magnitude decoded by [MAG_DICT] always gives a new position:
    [_calculate_new_pos] does not raise, the square differs from the
    origin and lies at most four rows and four columns away.  A
    knightwise action moves one step along one axis and two along the
    other; the other types move by the magnitude along their line, with
    rows decreasing for positive magnitudes. *)
Theorem decoded_action_moves_like_its_piece (row col : Z) (t : Action.ActionType) (i m : Z) :
  Action.MAG_DICT !! i = Some m →
  ∃ r c,
    Action._calculate_new_pos row col t m = inr (r, c) ∧
    (r, c) ≠ (row, col) ∧
    Z.abs (r - row) ≤ 4 ∧ Z.abs (c - col) ≤ 4 ∧
    match t with
    | Action.KNIGHTWISE =>
        (Z.abs (r - row) = 1 ∧ Z.abs (c - col) = 2) ∨
        (Z.abs (r - row) = 2 ∧ Z.abs (c - col) = 1)
    | Action.MAJOR_DIAG => r - row = - m ∧ c - col = m
    | Action.MINOR_DIAG => r - row = - m ∧ c - col = - m
    | Action.VERTICALLY => r - row = - m ∧ c = col
    | Action.HORIZONTAL => r = row ∧ c - col = m
    end.
Proof.
  intros H. apply Action.MAG_DICT_range in H as [Hr H0].
  destruct t; cbn.
  - destruct (Action.magnitude_cases m Hr H0)
      as [->|[->|[->|[->|[->|[->|[->| ->]]]]]]]; cbn;
      eexists _, _; (split; [reflexivity|]);
      (split; [intros [=]; lia|]); lia.
  - eexists _, _; split; [reflexivity|]. split; [intros [=]; lia|]. lia.
  - eexists _, _; split; [reflexivity|]. split; [intros [=]; lia|]. lia.
  - eexists _, _; split; [reflexivity|]. split; [intros [=]; lia|]. lia.
  - eexists _, _; split; [reflexivity|]. split; [intros [=]; lia|]. lia.
Qed.

Lemma decoded_action_moves_like_its_piece_witness :
  Action.MAG_DICT !! 5 = Some 2 ∧
  ∃ r c,
    Action._calculate_new_pos 2 2 Action.KNIGHTWISE 2 = inr (r, c) ∧
    (r, c) ≠ (2, 2) ∧
    Z.abs (r - 2) ≤ 4 ∧ Z.abs (c - 2) ≤ 4 ∧
    ((Z.abs (r - 2) = 1 ∧ Z.abs (c - 2) = 2) ∨
     (Z.abs (r - 2) = 2 ∧ Z.abs (c - 2) = 1)).
Proof.
  split; [reflexivity|].
  apply (decoded_action_moves_like_its_piece 2 2 Action.KNIGHTWISE 5 2).
  reflexivity.
Defined.

(** X12.  [_calculate_new_pos] raises [RuntimeError] exactly for a
    knightwise action whose magnitude is none of -4..-1 and 1..4: every
    other type accepts any magnitude, zero included. *)
Theorem new_position_fails_only_for_unknown_knight_move
    (row col : Z) (t : Action.ActionType) (m : Z) :
  Action._calculate_new_pos row col t m = inl Action.RuntimeError ↔
  t = Action.KNIGHTWISE ∧ (m < -4 ∨ m = 0 ∨ 4 < m).
Proof.
  split.
  - destruct t; cbn; try discriminate.
    repeat (match goal with
            | |- context [?a =? ?b] => destruct (Z.eqb_spec a b); try discriminate
            end).
    intros _. split; [reflexivity|lia].
  - intros [-> Hm]. cbn.
    repeat (match goal with
            | |- context [?a =? ?b] => destruct (Z.eqb_spec a b); try lia
            end).
    reflexivity.
Qed.

Lemma new_position_fails_only_for_unknown_knight_move_witness :
  Action._calculate_new_pos 2 2 Action.KNIGHTWISE 0 = inl Action.RuntimeError.
Proof.
  apply (new_position_fails_only_for_unknown_knight_move 2 2 Action.KNIGHTWISE 0).
  split; [reflexivity|lia].
Defined.

(** X13.  From one origin, two actions decoded from the tables reach the
    same square only if they have the same type and the same magnitude
    index: the forty (type, magnitude) pairs address forty different
    squares. *)
Theorem decoded_actions_reach_distinct_squares
    (row col : Z) (t1 t2 : Action.ActionType) (i1 i2 m1 m2 : Z) :
  Action.MAG_DICT !! i1 = Some m1 →
  Action.MAG_DICT !! i2 = Some m2 →
  Action._calculate_new_pos row col t1 m1 = Action._calculate_new_pos row col t2 m2 →
  t1 = t2 ∧ i1 = i2.
Proof.
  intros H1 H2 He.
  assert (t1 = t2 ∧ m1 = m2) as [-> ->].
  { apply Action.MAG_DICT_range in H1 as [Hr1 H01].
    apply Action.MAG_DICT_range in H2 as [Hr2 H02].
    destruct t1, t2; cbn in He;
    try (destruct (Action.magnitude_cases m1 Hr1 H01)
           as [->|[->|[->|[->|[->|[->|[->| ->]]]]]]]; cbn in He);
    try (destruct (Action.magnitude_cases m2 Hr2 H02)
           as [->|[->|[->|[->|[->|[->|[->| ->]]]]]]]; cbn in He);
    apply Action.new_pos_inj in He as [Ha Hb];
    (split; [reflexivity || (exfalso; lia)|lia]). }
  split; [reflexivity|].
  apply Action.MAG_DICT_lookup in H1 as [Hi1 E1].
  apply Action.MAG_DICT_lookup in H2 as [Hi2 E2].
  destruct (i1 <? 4) eqn:A1, (i2 <? 4) eqn:A2; lia.
Qed.

Lemma decoded_actions_reach_distinct_squares_witness :
  Action.MAG_DICT !! 1 = Some (-3) ∧
  Action._calculate_new_pos 3 3 Action.VERTICALLY (-3) = inr (6, 3) ∧
  (Action.VERTICALLY = Action.VERTICALLY ∧ 1 = 1).
Proof.
  split; [reflexivity|]. split; [reflexivity|].
  apply (decoded_actions_reach_distinct_squares 3 3
           Action.VERTICALLY Action.VERTICALLY 1 1 (-3) (-3));
    reflexivity.
Defined.

(** X14.  Every decoded move can be undone by a decoded move of the same
    type.  From the square reached, the magnitude stored at index [7 - i]
    (the opposite magnitude) leads back to the origin along a line, and
    for a knightwise move the magnitude stored four indices away does. *)
Theorem every_decoded_move_has_a_decoded_reverse
    (row col : Z) (t : Action.ActionType) (i m r c : Z) :
  Action.MAG_DICT !! i = Some m →
  Action._calculate_new_pos row col t m = inr (r, c) →
  ∃ j m',
    j = match t with
        | Action.KNIGHTWISE => if i <? 4 then i + 4 else i - 4
        | _ => 7 - i
        end ∧
    Action.MAG_DICT !! j = Some m' ∧
    Action._calculate_new_pos r c t m' = inr (row, col).
Proof.
  intros H He.
  pose proof (Action.MAG_DICT_range _ _ H) as [Hr H0].
  apply Action.MAG_DICT_lookup in H as [Hi E].
  destruct t.
  - exists (if i <? 4 then i + 4 else i - 4),
           (if i <? 4 then m + 5 else m - 5).
    split; [reflexivity|]. split.
    + apply Action.MAG_DICT_lookup.
      destruct (i <? 4) eqn:A.
      * destruct (i + 4 <? 4) eqn:A'; lia.
      * destruct (i - 4 <? 4) eqn:A'; lia.
    + assert (i = 0 ∨ i = 1 ∨ i = 2 ∨ i = 3 ∨ i = 4 ∨ i = 5 ∨ i = 6 ∨ i = 7)
        as Hc by lia.
      destruct Hc as [->|[->|[->|[->|[->|[->|[->| ->]]]]]]];
        cbn in E; subst m; cbn in He |- *;
        apply Action.new_pos_inj in He as [<- <-]; f_equal; f_equal; lia.
  - exists (7 - i), (- m). split; [reflexivity|]. split.
    + apply Action.MAG_DICT_lookup. split; [lia|].
      destruct (i <? 4) eqn:A, (7 - i <? 4) eqn:A'; lia.
    + cbn in He |- *.
      apply Action.new_pos_inj in He as [<- <-]; f_equal; f_equal; lia.
  - exists (7 - i), (- m). split; [reflexivity|]. split.
    + apply Action.MAG_DICT_lookup. split; [lia|].
      destruct (i <? 4) eqn:A, (7 - i <? 4) eqn:A'; lia.
    + cbn in He |- *.
      apply Action.new_pos_inj in He as [<- <-]; f_equal; f_equal; lia.
  - exists (7 - i), (- m). split; [reflexivity|]. split.
    + apply Action.MAG_DICT_lookup. split; [lia|].
      destruct (i <? 4) eqn:A, (7 - i <? 4) eqn:A'; lia.
    + cbn in He |- *.
      apply Action.new_pos_inj in He as [<- <-]; f_equal; f_equal; lia.
  - exists (7 - i), (- m). split; [reflexivity|]. split.
    + apply Action.MAG_DICT_lookup. split; [lia|].
      destruct (i <? 4) eqn:A, (7 - i <? 4) eqn:A'; lia.
    + cbn in He |- *.
      apply Action.new_pos_inj in He as [<- <-]; f_equal; f_equal; lia.
Qed.

Lemma every_decoded_move_has_a_decoded_reverse_witness :
  Action.MAG_DICT !! 6 = Some 3 ∧
  Action._calculate_new_pos 2 2 Action.KNIGHTWISE 3 = inr (1, 4) ∧
  ∃ j m',
    j = 2 ∧
    Action.MAG_DICT !! j = Some m' ∧
    Action._calculate_new_pos 1 4 Action.KNIGHTWISE m' = inr (2, 2).
Proof.
  split; [reflexivity|]. split; [reflexivity|].
  apply (every_decoded_move_has_a_decoded_reverse 2 2 Action.KNIGHTWISE 6 3 1 4);
    reflexivity.
Defined.

(** ** The value loss of [pytorch/NNet.py]

    [NNetWrapper.loss_v] is the mean squared error between the targets, a
    tensor of one dimension, and the outputs flattened by [view(-1)]: both
    are lists here.  The subtraction broadcasts as [np_broadcast] does and
    raises torch's [RuntimeError] where it cannot; the division is a
    float division, so an empty batch gives NaN and no exception. *)

Module NNetWrapper.

Inductive error : Type := RuntimeError.

Inductive scalar : Type :=
  | Value (q : Q)
  | NaN.

Definition square (x : Q) : Q := (x * x)%Q.

Definition loss_v (targets outputs : list Q) : error + scalar :=
  match np_broadcast Qminus targets outputs with
  | None => inl RuntimeError
  | Some diff =>
      let total := np_sum (map square diff) in
      match targets with
      | [] => inr NaN
      | _ => inr (Value (total / inject_Z (Z.of_nat (length targets))))
      end
  end.

Lemma square_nonneg (x : Q) : (0 <= square x)%Q.
Proof. unfold square. nra. Qed.

Lemma square_zero (x : Q) : (square x == 0)%Q → (x == 0)%Q.
Proof. unfold square. nra. Qed.

Lemma squares_nonneg (l : list Q) : (0 <= np_sum (map square l))%Q.
Proof.
  apply np_sum_nonneg. apply Forall_map, Forall_forall.
  intros x _. apply square_nonneg.
Qed.

Lemma squares_zero (l : list Q) :
  (np_sum (map square l) == 0)%Q ↔ Forall (λ x, (x == 0)%Q) l.
Proof.
  induction l as [|x l IH]; cbn [map].
  - split; [constructor|reflexivity].
  - rewrite np_sum_cons.
    pose proof (square_nonneg x). pose proof (squares_nonneg l).
    split.
    + intros Hs. constructor.
      * apply square_zero. lra.
      * apply IH. lra.
    + intros Hf. inversion Hf as [|? ? Hx Hl]; subst.
      apply IH in Hl. unfold square in *. nra.
Qed.

Lemma differences_zero (xs ys : list Q) :
  length xs = length ys →
  Forall (λ x, (x == 0)%Q) (zip_with Qminus xs ys) ↔ Forall2 Qeq xs ys.
Proof.
  revert ys. induction xs as [|x xs IH]; intros [|y ys] Hl;
    try discriminate; cbn [zip_with].
  - split; constructor.
  - injection Hl as Hl. split.
    + intros Hf. inversion Hf as [|? ? Hx Hr]; subst.
      constructor; [lra|]. by apply IH.
    + intros Hf. inversion Hf as [|? ? ? ? Hx Hr]; subst.
      constructor; [lra|]. by apply IH.
Qed.

End NNetWrapper.

(** X15.  On a batch that is not empty, with one output per target,
    [loss_v] returns a number that is never negative; in exact arithmetic
    it is zero exactly when every output equals its target. *)
Theorem value_loss_is_zero_only_on_exact_predictions (targets outputs : list Q) :
  targets ≠ [] →
  length targets = length outputs →
  ∃ q, NNetWrapper.loss_v targets outputs = inr (NNetWrapper.Value q) ∧
       (0 <= q)%Q ∧
       ((q == 0)%Q ↔ Forall2 Qeq targets outputs).
Proof.
  intros Hne Hl. unfold NNetWrapper.loss_v.
  rewrite np_broadcast_same_length by done.
  destruct targets as [|t ts]; [done|].
  set (n := inject_Z (Z.of_nat (length (t :: ts)))).
  set (total := np_sum (map NNetWrapper.square (zip_with Qminus (t :: ts) outputs))).
  assert (0 < n)%Q as Hn.
  { unfold n. change 0%Q with (inject_Z 0). rewrite <- Zlt_Qlt. cbn [length]. lia. }
  assert (0 <= total)%Q as Ht by apply NNetWrapper.squares_nonneg.
  exists (total / n)%Q. split; [reflexivity|]. split.
  - apply Qle_shift_div_l; [done|lra].
  - rewrite <- NNetWrapper.differences_zero by done.
    rewrite <- NNetWrapper.squares_zero. fold total.
    split.
    + intros Hq. assert (total == (total / n) * n)%Q as -> by (field; lra).
      rewrite Hq. lra.
    + intros Hq. rewrite Hq. field. lra.
Qed.

Lemma value_loss_is_zero_only_on_exact_predictions_witness :
  ∃ q, NNetWrapper.loss_v [1; -1]%Q [1 # 2; -1]%Q = inr (NNetWrapper.Value q) ∧
       (0 <= q)%Q ∧
       ((q == 0)%Q ↔ Forall2 Qeq [1; -1]%Q [1 # 2; -1]%Q).
Proof.
  apply (value_loss_is_zero_only_on_exact_predictions [1; -1]%Q [1 # 2; -1]%Q);
    [discriminate|reflexivity].
Defined.

(** X16.  [loss_v] raises only when the two tensors cannot be broadcast
    (different lengths, neither of them one); an empty batch of targets
    with at most one output gives NaN, not an exception; and one target
    against several outputs is broadcast silently, the result being the
    sum, not the mean, of the squared differences. *)
Theorem value_loss_failure_modes (targets outputs : list Q) :
  (NNetWrapper.loss_v targets outputs = inl NNetWrapper.RuntimeError ↔
     length targets ≠ length outputs ∧
     length targets ≠ 1%nat ∧ length outputs ≠ 1%nat) ∧
  (NNetWrapper.loss_v targets outputs = inr NNetWrapper.NaN ↔
     targets = [] ∧ (length outputs ≤ 1)%nat) ∧
  (∀ t, targets = [t] → outputs ≠ [] →
     ∃ q, NNetWrapper.loss_v targets outputs = inr (NNetWrapper.Value q) ∧
          (q == np_sum (map (λ y, NNetWrapper.square (t - y)) outputs))%Q).
Proof.
  split; [|split].
  - split.
    + intros H. unfold NNetWrapper.loss_v, np_broadcast in H.
      destruct (decide (length targets = length outputs)) as [E|E].
      { destruct targets; discriminate. }
      destruct targets as [|x [|x' xs]]; destruct outputs as [|y [|y' ys]];
        cbn in *; try discriminate; try done.
    + intros (H & H1 & H2). unfold NNetWrapper.loss_v.
      by rewrite np_broadcast_mismatch.
  - split.
    + intros H. unfold NNetWrapper.loss_v, np_broadcast in H.
      destruct (decide (length targets = length outputs)) as [E|E].
      { destruct targets; [|discriminate]. destruct outputs; [|discriminate].
        split; [done|cbn; lia]. }
      destruct targets as [|x [|x' xs]]; destruct outputs as [|y [|y' ys]];
        cbn in *; try discriminate; try done; (split; [done|lia]).
    + intros [-> H]. destruct outputs as [|y [|y' ys]]; cbn in H; try lia;
        reflexivity.
  - intros t -> Ho. unfold NNetWrapper.loss_v, np_broadcast.
    destruct (decide (length [t] = length outputs)) as [E|E].
    + destruct outputs as [|y [|y' ys]]; cbn in E; try lia.
      eexists. split; [reflexivity|]. cbn. field.
    + destruct outputs as [|y ys]; [done|].
      eexists. split; [reflexivity|].
      rewrite map_map. cbn [length Z.of_nat]. 
      change (inject_Z (Z.of_nat 1)) with 1%Q. field.
Qed.

Lemma value_loss_failure_modes_witness :
  NNetWrapper.loss_v [] [] = inr NNetWrapper.NaN ∧
  NNetWrapper.loss_v [1; 0]%Q [1; 0; 1]%Q = inl NNetWrapper.RuntimeError.
Proof.
  split.
  - apply (value_loss_failure_modes [] []). split; [reflexivity|cbn; lia].
  - apply (value_loss_failure_modes [1; 0]%Q [1; 0; 1]%Q). cbn. lia.
Defined.
